(** * boostgo/worker: periodic worker and Redis-backed distributed lock

    A shallow embedding of the Go package [worker]:

    - [locker.go]: [Locker] ([NewLocker], [TryLock], [Unlock], [renewLock],
      [IsLocked]), the lock middlewares and [CancelRunningWorker];
    - the middleware-based [Worker] ([runAction] with before/after
      middlewares, [Run]) -- module [MW];
    - the context-based [Worker] ([runAction] through [try], [Run]) --
      module [CW].

    Go values are modelled as follows.  A [time.Duration] is an [int64]
    number of nanoseconds, here a [Z] with the wrap-around of [+] written
    out.  An [error] is [option error] ([None] is [nil]).  The Redis server
    behind [redis.Client] is a finite map from keys to records; every client
    call consumes one entry of a fault schedule, so that transport errors
    are inputs of the model.  Goroutines started with [go] and calls of
    cancel functions are recorded in an effect log.  A [select] statement is
    modelled by the arm it takes; an arm can only be taken when its channel
    is ready. *)

From Stdlib Require Import ZArith Lia Bool Ascii String List.
From Stdlib Require SpecFloat.
From stdpp Require Import base gmap strings list.

Set Default Proof Using "Type".

(** ** Errors *)

(** Modelled from the spec: the sentinel [ErrLocked] (declared in a file of
    the package that is not part of the sources at hand) is the
    distinguished lock-contention error.  [ErrNew] is [errors.New],
    [ErrWrap] is [fmt.Errorf("...: %w", err)].  [ErrPanicRecover] is the
    one error the library [errorx] (outside this repository) returns for
    every panic it recovers, whatever the panic value. *)
Inductive error : Type :=
| ErrLocked
| ErrPanicRecover
| ErrNew (msg : string)
| ErrWrap (msg : string) (inner : error).

Global Instance error_eq_dec : EqDecision error.
Proof. solve_decision. Defined.

(** [errors.Is]: [err] or an error it wraps equals [target]. *)
Fixpoint errors_Is (err target : error) : bool :=
  if bool_decide (err = target) then true
  else match err with
       | ErrWrap _ inner => errors_Is inner target
       | _ => false
       end.

(** ** Durations *)

Definition Nanosecond : Z := 1.
Definition Second : Z := 1000000000.
Definition min_int64 : Z := - 2 ^ 63.
Definition max_int64 : Z := 2 ^ 63 - 1.

(** Two's complement wrap-around of [int64] arithmetic. *)
Definition wrap64 (z : Z) : Z := (z + 2 ^ 63) mod 2 ^ 64 - 2 ^ 63.

Definition duration_add (a b : Z) : Z := wrap64 (a + b).

(** Go's [/] on integers truncates toward zero. *)
Definition duration_div (a b : Z) : Z := Z.quot a b.

(** *** [float64] arithmetic

    A finite [float64] that is not negative is kept as a fraction whose
    denominator is a power of two.  Every operation computes the exact
    rational result and rounds it to the nearest number with 53
    significant bits, ties to the even one, as IEEE 754 prescribes.  The
    magnitudes met here lie between 1e-9 and 2^34, far from overflow and
    from the subnormal numbers, which are therefore not modelled. *)

(** The integer nearest to [a / b], for [b] positive; ties go to the even
    one. *)
Definition div_nearest_even (a b : Z) : Z :=
  let q := Z.div a b in
  let r := Z.modulo a b in
  if (2 * r <? b)%Z then q
  else if (b <? 2 * r)%Z then (q + 1)%Z
  else if Z.even q then q else (q + 1)%Z.

(** [d * 2^k <= n], for [k] of either sign. *)
Definition scaled_le (d k n : Z) : bool :=
  if (0 <=? k)%Z then (d * 2 ^ k <=? n)%Z else (d <=? n * 2 ^ (- k))%Z.

(** The binary exponent of [n / d]: [2^e <= n / d < 2^(e + 1)]. *)
Definition ratio_log2 (n d : Z) : Z :=
  let k := (Z.log2 n - Z.log2 d)%Z in
  if scaled_le d k n then k else (k - 1)%Z.

(** The [float64] nearest to [n / d], for [n >= 0] and [d > 0]. *)
Definition round_binary64 (n d : Z) : Z * Z :=
  if (n =? 0)%Z then (0, 1)%Z
  else
    let s := (52 - ratio_log2 n d)%Z in
    if (0 <=? s)%Z then (div_nearest_even (n * 2 ^ s) d, 2 ^ s)%Z
    else (div_nearest_even n (d * 2 ^ (- s)) * 2 ^ (- s), 1)%Z.

(** [float64(n)] *)
Definition float64_of_int (n : Z) : Z * Z := round_binary64 n 1.

(** [x / y] and [x + y] on [float64] *)
Definition float64_div (x y : Z * Z) : Z * Z :=
  round_binary64 (fst x * snd y) (snd x * fst y).

Definition float64_add (x y : Z * Z) : Z * Z :=
  round_binary64 (fst x * snd y + fst y * snd x) (snd x * snd y).

(** [int(x)]: truncation. *)
Definition float64_to_int (x : Z * Z) : Z := Z.div (fst x) (snd x).

(** [Duration.Seconds] on a duration that is not negative:
    [sec := d / Second; nsec := d % Second;
     return float64(sec) + float64(nsec)/1e9]. *)
Definition Duration_Seconds (d : Z) : Z * Z :=
  let sec := Z.div d Second in
  let nsec := Z.modulo d Second in
  float64_add (float64_of_int sec)
              (float64_div (float64_of_int nsec) (float64_of_int 1000000000)).

(** [int(d.Seconds())].  For a negative duration [sec] and [nsec] are both
    negative or zero and the rounding is symmetric, so the result is the
    opposite of the one for [- d]. *)
Definition duration_whole_seconds (d : Z) : Z :=
  if (0 <=? d)%Z then float64_to_int (Duration_Seconds d)
  else (- float64_to_int (Duration_Seconds (- d)))%Z.

(** The same computation on the Standard Library's specification of
    IEEE 754 arithmetic, at the [float64] format, for comparison. *)
Definition ieee_of_int (n : Z) : SpecFloat.spec_float :=
  SpecFloat.binary_normalize 53 1024 n 0 false.

Definition ieee_to_int (x : SpecFloat.spec_float) : Z :=
  match x with
  | SpecFloat.S754_finite s m e =>
      let v := if (0 <=? e)%Z then (Zpos m * 2 ^ e)%Z
               else Z.div (Zpos m) (2 ^ (- e)) in
      if s then (- v)%Z else v
  | _ => 0%Z
  end.

Definition ieee_whole_seconds (d : Z) : Z :=
  ieee_to_int
    (SpecFloat.SFadd 53 1024 (ieee_of_int (Z.quot d Second))
       (SpecFloat.SFdiv 53 1024 (ieee_of_int (Z.rem d Second))
                        (ieee_of_int 1000000000))).

(** ** Contexts *)

(** [context.Background()] and the process context [appx.Context()] are
    roots; [WithValue] stands for [trace.Set]; the [nat] of [WithCancel] and
    [WithTimeout] names the cancel function returned with the context. *)
Inductive context : Type :=
| Background
| AppContext
| WithValue (parent : context)
| WithTimeout (parent : context) (d : Z) (cancel : nat)
| WithCancel (parent : context) (cancel : nat).

Fixpoint ctx_root (c : context) : context :=
  match c with
  | Background => Background
  | AppContext => AppContext
  | WithValue p => ctx_root p
  | WithTimeout p _ _ => ctx_root p
  | WithCancel p _ => ctx_root p
  end.

Definition min_deadline (a : option Z) (d : Z) : option Z :=
  match a with
  | None => Some d
  | Some x => Some (Z.min x d)
  end.

(** Time left until the context expires on its own, measured from the
    instant the chain was built; [None] when it is unbounded. *)
Fixpoint ctx_deadline (c : context) : option Z :=
  match c with
  | Background => None
  | AppContext => None
  | WithValue p => ctx_deadline p
  | WithTimeout p d _ => min_deadline (ctx_deadline p) d
  | WithCancel p _ => ctx_deadline p
  end.

(** The cancel functions whose call ends the context. *)
Fixpoint ctx_cancels (c : context) : list nat :=
  match c with
  | Background => []
  | AppContext => []
  | WithValue p => ctx_cancels p
  | WithTimeout p _ k => k :: ctx_cancels p
  | WithCancel p k => k :: ctx_cancels p
  end.

(** ** The Redis server *)

Record record : Type := mkRecord {
  rec_value : string;
  rec_ttl : Z (* remaining life, in nanoseconds *)
}.

Inductive lua_val : Type :=
| LFalse
| LInt (n : Z)
| LStr (s : string).

Global Instance lua_val_eq_dec : EqDecision lua_val.
Proof. solve_decision. Defined.

Definition redis_get (key : string) (st : gmap string record) : lua_val :=
  match st !! key with
  | Some r => LStr (rec_value r)
  | None => LFalse
  end.

Definition redis_del (key : string) (st : gmap string record)
  : lua_val * gmap string record :=
  match st !! key with
  | Some _ => (LInt 1, delete key st)
  | None => (LInt 0, st)
  end.

(** [EXPIRE key seconds]: a timeout that is not positive deletes the key. *)
Definition redis_expire (key : string) (seconds : Z) (st : gmap string record)
  : lua_val * gmap string record :=
  match st !! key with
  | Some r =>
      if (seconds <=? 0)%Z then (LInt 1, delete key st)
      else (LInt 1, <[key := mkRecord (rec_value r) (seconds * Second)]> st)
  | None => (LInt 0, st)
  end.

(** [SET key value NX PX ttl]: create only if absent. *)
Definition redis_setnx (key value : string) (ttl : Z) (st : gmap string record)
  : bool * gmap string record :=
  match st !! key with
  | Some _ => (false, st)
  | None => (true, <[key := mkRecord value ttl]> st)
  end.

(** *** The Lua scripts of [Unlock] and [renewLock] *)

Inductive lua_ref : Type :=
| KEYS (i : nat)
| ARGV (i : nat).

Inductive lua_expr : Type :=
| ERef (r : lua_ref)
| EInt (n : Z)
| ECall (cmd : string) (args : list lua_ref).

(** [if lhs == rhs then return e1 else return e2 end] *)
Inductive lua_script : Type :=
| SIfEq (lhs rhs : lua_expr) (e1 e2 : lua_expr).

Definition unlock_script : lua_script :=
  SIfEq (ECall "get" [KEYS 1]) (ERef (ARGV 1))
        (ECall "del" [KEYS 1])
        (EInt 0).

Definition renew_script : lua_script :=
  SIfEq (ECall "get" [KEYS 1]) (ERef (ARGV 1))
        (ECall "expire" [KEYS 1; ARGV 2])
        (EInt 0).

Section Lua.
Variable keys : list string.
Variable argv : list lua_val.

(** Lua tables are indexed from 1. *)
Definition lua_deref (r : lua_ref) : lua_val :=
  match r with
  | KEYS i => match keys !! pred i with Some k => LStr k | None => LFalse end
  | ARGV i => match argv !! pred i with Some v => v | None => LFalse end
  end.

Definition lua_key (v : lua_val) : string :=
  match v with
  | LStr s => s
  | _ => EmptyString
  end.

Definition lua_int (v : lua_val) : Z :=
  match v with
  | LInt n => n
  | _ => 0
  end.

Definition redis_call (cmd : string) (args : list lua_val)
           (st : gmap string record) : lua_val * gmap string record :=
  match args with
  | [k] =>
      if String.eqb cmd "get" then (redis_get (lua_key k) st, st)
      else if String.eqb cmd "del" then redis_del (lua_key k) st
      else (LFalse, st)
  | [k; n] =>
      if String.eqb cmd "expire" then redis_expire (lua_key k) (lua_int n) st
      else (LFalse, st)
  | _ => (LFalse, st)
  end.

Definition lua_eval (e : lua_expr) (st : gmap string record)
  : lua_val * gmap string record :=
  match e with
  | ERef r => (lua_deref r, st)
  | EInt n => (LInt n, st)
  | ECall cmd args => redis_call cmd (map lua_deref args) st
  end.

Definition lua_run (s : lua_script) (st : gmap string record)
  : lua_val * gmap string record :=
  match s with
  | SIfEq lhs rhs e1 e2 =>
      let '(a, st1) := lua_eval lhs st in
      let '(b, st2) := lua_eval rhs st1 in
      if bool_decide (a = b) then lua_eval e1 st2 else lua_eval e2 st2
  end.
End Lua.

(** ** The process state seen by the lock *)

(** What happens to one client call: it goes through, it fails before the
    server saw it, or the server applied it and the reply was lost. *)
Inductive fault : Type :=
| NoFault
| FailBefore (e : error)
| FailAfter (e : error).

Inductive goroutine : Type :=
| GoRenewLock
| GoMonitorLock (ctx : context).

Inductive client_call : Type :=
| CallSetNX (key value : string) (ttl : Z)
| CallGet (key : string)
| CallEval (s : lua_script) (keys : list string) (argv : list lua_val).

Inductive effect : Type :=
| EfCall (c : client_call)
| EfGo (g : goroutine)
| EfCancel (k : nat).

(** [Locker]; the client is the store of the [world] below. *)
Record Locker : Type := mkLocker {
  lockKey : string;
  lockValue : string;
  lockTTL : Z;
  renewInterval : Z;
  l_ctx : option context;
  l_cancel : option nat
}.

Record world : Type := mkWorld {
  w_store : gmap string record;
  w_faults : list fault;      (* fate of the coming client calls *)
  w_cancelled : gset nat;     (* cancel functions that were called *)
  w_next : nat;               (* next fresh cancel function *)
  w_log : list effect;        (* most recent first *)
  w_locker : Locker;          (* the *Locker shared by the middlewares *)
  w_watcher_cancel : option nat (* CancelRunningWorker.cancel *)
}.

Definition set_store (st : gmap string record) (w : world) : world :=
  mkWorld st (w_faults w) (w_cancelled w) (w_next w) (w_log w) (w_locker w)
          (w_watcher_cancel w).

Definition set_locker (l : Locker) (w : world) : world :=
  mkWorld (w_store w) (w_faults w) (w_cancelled w) (w_next w) (w_log w) l
          (w_watcher_cancel w).

Definition set_watcher_cancel (k : option nat) (w : world) : world :=
  mkWorld (w_store w) (w_faults w) (w_cancelled w) (w_next w) (w_log w)
          (w_locker w) k.

Definition log_effect (e : effect) (w : world) : world :=
  mkWorld (w_store w) (w_faults w) (w_cancelled w) (w_next w) (e :: w_log w)
          (w_locker w) (w_watcher_cancel w).

(** [go f()] *)
Definition go (g : goroutine) (w : world) : world := log_effect (EfGo g) w.

(** Calling a cancel function. *)
Definition call_cancel (k : nat) (w : world) : world :=
  log_effect (EfCancel k)
    (mkWorld (w_store w) (w_faults w) ({[k]} ∪ w_cancelled w) (w_next w)
             (w_log w) (w_locker w) (w_watcher_cancel w)).

(** [context.WithCancel(ctx)] *)
Definition context_WithCancel (ctx : context) (w : world)
  : context * nat * world :=
  let k := w_next w in
  (WithCancel ctx k, k,
   mkWorld (w_store w) (w_faults w) (w_cancelled w) (S k) (w_log w)
           (w_locker w) (w_watcher_cancel w)).

(** A context is done once one of the cancel functions on its chain was
    called (its deadline passing is an event of the environment). *)
Definition ctx_cancelled (w : world) (c : context) : bool :=
  existsb (fun k => bool_decide (k ∈ w_cancelled w)) (ctx_cancels c).

(** *** [redis.Client] *)

Definition next_fault (w : world) : fault * world :=
  match w_faults w with
  | [] => (NoFault, w)
  | f :: fs =>
      (f, mkWorld (w_store w) fs (w_cancelled w) (w_next w) (w_log w)
                  (w_locker w) (w_watcher_cancel w))
  end.

Definition client_SetNX (key value : string) (ttl : Z) (w : world)
  : bool * option error * world :=
  let '(f, w1) := next_fault (log_effect (EfCall (CallSetNX key value ttl)) w) in
  match f with
  | NoFault =>
      let '(ok, st) := redis_setnx key value ttl (w_store w1) in
      (ok, None, set_store st w1)
  | FailBefore e => (false, Some e, w1)
  | FailAfter e =>
      let '(_, st) := redis_setnx key value ttl (w_store w1) in
      (false, Some e, set_store st w1)
  end.

Definition redis_Nil : error := ErrNew "redis: nil".

(** A key that is absent is reported as the error [redis.Nil]. *)
Definition client_Get (key : string) (w : world)
  : string * option error * world :=
  let '(f, w1) := next_fault (log_effect (EfCall (CallGet key)) w) in
  match f with
  | NoFault =>
      match redis_get key (w_store w1) with
      | LStr v => (v, None, w1)
      | _ => (EmptyString, Some redis_Nil, w1)
      end
  | FailBefore e => (EmptyString, Some e, w1)
  | FailAfter e => (EmptyString, Some e, w1)
  end.

Definition client_Eval (s : lua_script) (keys : list string)
           (argv : list lua_val) (w : world)
  : lua_val * option error * world :=
  let '(f, w1) := next_fault (log_effect (EfCall (CallEval s keys argv)) w) in
  match f with
  | NoFault =>
      let '(v, st) := lua_run keys argv s (w_store w1) in
      (v, None, set_store st w1)
  | FailBefore e => (LFalse, Some e, w1)
  | FailAfter e =>
      let '(_, st) := lua_run keys argv s (w_store w1) in
      (LFalse, Some e, set_store st w1)
  end.

(** ** [Locker] *)

Definition hex_digit (n : N) : ascii :=
  match n with
  | 0%N => "0" | 1%N => "1" | 2%N => "2" | 3%N => "3"
  | 4%N => "4" | 5%N => "5" | 6%N => "6" | 7%N => "7"
  | 8%N => "8" | 9%N => "9" | 10%N => "a" | 11%N => "b"
  | 12%N => "c" | 13%N => "d" | 14%N => "e" | _ => "f"
  end%char.

(** [hex.EncodeToString] *)
Fixpoint hex_EncodeToString (bs : list Byte.byte) : string :=
  match bs with
  | [] => EmptyString
  | b :: rest =>
      let n := Byte.to_N b in
      String (hex_digit (N.div n 16))
             (String (hex_digit (N.modulo n 16)) (hex_EncodeToString rest))
  end.

(** [generateLockValue]; [entropy] is what [rand.Read] put in the 16 bytes. *)
Definition generateLockValue (entropy : list Byte.byte) : string :=
  hex_EncodeToString (take 16 (entropy ++ replicate 16 Byte.x00)).

Definition NewLocker (entropy : list Byte.byte) (workerName : string)
           (ttl : Z) : Locker :=
  let lockValue := generateLockValue entropy in
  mkLocker ("worker:lock:" +:+ workerName) lockValue ttl
           (duration_div ttl 3) (* Renew at 1/3 of TTL *)
           None None.

Definition TryLock (ctx : context) (w : world) : option error * world :=
  let l := w_locker w in
  let '(result, err, w1) :=
    client_SetNX (lockKey l) (lockValue l) (lockTTL l) w in
  match err with
  | Some e => (Some (ErrWrap "failed to acquire lock" e), w1)
  | None =>
      if negb result then (Some ErrLocked, w1)
      else
        let '(cctx, cancel, w2) := context_WithCancel ctx w1 in
        let l2 := w_locker w2 in
        let w3 :=
          set_locker (mkLocker (lockKey l2) (lockValue l2) (lockTTL l2)
                               (renewInterval l2) (Some cctx) (Some cancel))
                     w2 in
        (None, go GoRenewLock w3)
  end.

Definition Unlock (w : world) : option error * world :=
  let l := w_locker w in
  let w1 := match l_cancel l with
            | Some k => call_cancel k w
            | None => w
            end in
  let '(_, err, w2) :=
    client_Eval unlock_script [lockKey l] [LStr (lockValue l)] w1 in
  (err, w2).

Definition IsLocked (w : world) : bool * world :=
  let l := w_locker w in
  let '(val, err, w1) := client_Get (lockKey l) w in
  match err with
  | Some _ => (false, w1)
  | None => (String.eqb val (lockValue l), w1)
  end.

(** *** The renewal loop *)

Inductive loop_status : Type :=
| Looping
| Exited
| Panicked.

(** The body of [case <-ticker.C] in [renewLock]. *)
Definition renew_tick (w : world) : loop_status * world :=
  let l := w_locker w in
  let '(result, err, w1) :=
    client_Eval renew_script [lockKey l]
                [LStr (lockValue l); LInt (duration_whole_seconds (lockTTL l))]
                w in
  let lost :=
    match err with
    | Some _ => Some true
    | None => match result with
              | LInt n => Some (n =? 0)%Z
              | _ => None (* result.(int64) fails *)
              end
    end in
  match lost with
  | None => (Panicked, w1)
  | Some true =>
      (* Failed to renew or lost the lock *)
      match l_cancel l with
      | Some k => (Exited, call_cancel k w1)
      | None => (Panicked, w1)
      end
  | Some false => (Looping, w1)
  end.

(** The arm a [select] of a polling loop takes. *)
Inductive poll_arm : Type :=
| ArmCtxDone
| ArmTicker.

(** One iteration of the [for { select ... }] of [renewLock]; [None] when
    the chosen arm is not ready. *)
Definition renew_step (arm : poll_arm) (w : world)
  : option (loop_status * world) :=
  match arm with
  | ArmCtxDone =>
      match l_ctx (w_locker w) with
      | Some c => if ctx_cancelled w c then Some (Exited, w) else None
      | None => None
      end
  | ArmTicker => Some (renew_tick w)
  end.

(** *** Tickers

    A ticker made at time [now] with period [d] fires at [now + d],
    [now + 2d], ...  Its channel has capacity one: a tick that fires while
    another waits there is dropped. *)
Record ticker : Type := mkTicker {
  tk_period : Z;
  tk_next : Z;        (* when the next tick fires *)
  tk_buffered : bool  (* a tick waits in the channel *)
}.

(** [time.NewTicker(d)] at time [now]; it panics when [d] is not
    positive. *)
Definition NewTicker (now d : Z) : option ticker :=
  if (d <=? 0)%Z then None else Some (mkTicker d (now + d)%Z false).

(** The ticker when the clock shows [now]: the ticks due by then have
    fired, and the next one is due at the first multiple of the period
    after [now]. *)
Definition ticker_at (now : Z) (t : ticker) : ticker :=
  if (tk_next t <=? now)%Z then
    mkTicker (tk_period t)
             (tk_next t
              + tk_period t * (1 + Z.div (now - tk_next t) (tk_period t)))%Z
             true
  else t.

(** [<-ticker.C], when a tick waits in the channel. *)
Definition ticker_receive (t : ticker) : option ticker :=
  if tk_buffered t then Some (mkTicker (tk_period t) (tk_next t) false)
  else None.

(** The [for] loop of [renewLock] under a timed schedule of [select]
    choices: at time [t] the [select] takes [arm].  The arm of the ticker
    is ready only when a tick waits in its channel.  The loop stops for
    good when an iteration returns.  The result carries the ticker and the
    clock at the last choice. *)
Fixpoint renew_loop (tk : ticker) (now : Z) (sched : list (Z * poll_arm))
         (w : world) : option (loop_status * world * ticker * Z) :=
  match sched with
  | [] => Some (Looping, w, tk, now)
  | (t, arm) :: rest =>
      if (t <? now)%Z then None
      else
        let tk1 := ticker_at t tk in
        match (match arm with
               | ArmTicker => ticker_receive tk1
               | ArmCtxDone => Some tk1
               end) with
        | None => None
        | Some tk2 =>
            match renew_step arm w with
            | None => None
            | Some (Looping, w1) => renew_loop tk2 t rest w1
            | Some (s, w1) => Some (s, w1, tk2, t)
            end
        end
  end.

Definition renew_period (w : world) : Z := renewInterval (w_locker w).

(** The goroutine [renewLock], started at time [start]:
    [time.NewTicker(l.renewInterval)], then the loop. *)
Definition renewLock (start : Z) (sched : list (Z * poll_arm)) (w : world)
  : option (loop_status * world) :=
  match NewTicker start (renew_period w) with
  | None => Some (Panicked, w)
  | Some tk =>
      match renew_loop tk start sched w with
      | Some (s, w1, _, _) => Some (s, w1)
      | None => None
      end
  end.

(** What holds of a ticker made at [start] with period [p] once [c] of
    its ticks were received: the tick in the channel, if any, fired no
    earlier than [start + (c + 1) p], and the next is due no earlier than
    one period later. *)
Definition ticker_inv (start p c : Z) (tk : ticker) (now : Z) : Prop :=
  tk_period tk = p /\
  (start + (c + 1 + (if tk_buffered tk then 1 else 0)) * p <= tk_next tk)%Z /\
  (tk_buffered tk = true -> (start + (c + 1) * p <= now)%Z).

(** The times at which a schedule takes the arm of the ticker. *)
Fixpoint tick_times (sched : list (Z * poll_arm)) : list Z :=
  match sched with
  | [] => []
  | (t, ArmTicker) :: rest => t :: tick_times rest
  | (_, ArmCtxDone) :: rest => tick_times rest
  end.

(** The schedule that takes [n] ticks, each as soon as it fires. *)
Fixpoint prompt_ticks (now period : Z) (n : nat) : list (Z * poll_arm) :=
  match n with
  | O => []
  | S k => ((now + period)%Z, ArmTicker)
           :: prompt_ticks (now + period)%Z period k
  end.

(** ** Lock middlewares *)

Inductive outcome : Type :=
| Return (err : option error)
| Panic (v : string).

Definition LockMiddleware (ctx : context) (w : world) : outcome * world :=
  let '(err, w1) := TryLock ctx w in (Return err, w1).

Definition UnlockMiddleware (ctx : context) (w : world) : outcome * world :=
  let '(err, w1) := Unlock w in (Return err, w1).

(** [CancelRunningWorker.Middleware] *)
Definition CancelRunningWorker_Middleware (ctx : context) (w : world)
  : outcome * world :=
  (* Check if we still have the lock *)
  let '(locked, w1) := IsLocked w in
  if negb locked then (Return (Some ErrLocked), w1)
  else
    let '(cctx, cancel, w2) := context_WithCancel ctx w1 in
    let w3 := set_watcher_cancel (Some cancel) w2 in
    (Return None, go (GoMonitorLock cctx) w3).

(** The body of [case <-ticker.C] in [monitorLock]. *)
Definition monitor_tick (w : world) : loop_status * world :=
  let '(locked, w1) := IsLocked w in
  if negb locked then
    match w_watcher_cancel w1 with
    | Some k => (Exited, call_cancel k w1)
    | None => (Exited, w1)
    end
  else (Looping, w1).

Definition monitor_step (ctx : context) (arm : poll_arm) (w : world)
  : option (loop_status * world) :=
  match arm with
  | ArmCtxDone => if ctx_cancelled w ctx then Some (Exited, w) else None
  | ArmTicker => Some (monitor_tick w)
  end.

Fixpoint monitorLock (ctx : context) (sched : list poll_arm) (w : world)
  : option (loop_status * world) :=
  match sched with
  | [] => Some (Looping, w)
  | arm :: rest =>
      match monitor_step ctx arm w with
      | None => None
      | Some (Looping, w1) => monitorLock ctx rest w1
      | Some (s, w1) => Some (s, w1)
      end
  end.

(** ** Sample data *)

Definition sample_locker : Locker :=
  mkLocker "worker:lock:job" "aa" (30 * Second) (10 * Second)
           (Some (WithCancel Background 0)) (Some 0%nat).

Definition sample_world (st : gmap string record) (fs : list fault) : world :=
  mkWorld st fs ∅ 1 [] sample_locker None.

(** The key holds this instance's token. *)
Definition store_own : gmap string record :=
  {[ "worker:lock:job" := mkRecord "aa" (30 * Second) ]}.

(** The key holds the token of another instance. *)
Definition store_foreign : gmap string record :=
  {[ "worker:lock:job" := mkRecord "bb" (30 * Second) ]}.

(** The fate of the next client call. *)
Definition coming_fault (w : world) : fault := hd NoFault (w_faults w).

(** An instance owns the lock iff the stored value is its token. *)
Definition owns (l : Locker) (st : gmap string record) : Prop :=
  redis_get (lockKey l) st = LStr (lockValue l).

(** ** The scheduler loop of [Worker.Run]

    Both worker files have the same [Run]: an optional first run, then a
    goroutine whose [for { select ... }] waits for the external context
    ([appx.Context()] in one file, [worker.ctx] in the other), for
    [worker.stopper] and for [ticker.C].  The loop is written once, over
    the [runAction] of the worker. *)

Inductive hook_event : Type :=
| RanBefore (i : nat)
| RanAction
| RanAfter (i : nat)
| LogError (msg : string) (e : error).

Inductive run_status : Type :=
| Running
| Returned
| Blocked   (* stuck forever in a send on the full [stopper] *)
| Crashed.  (* [time.NewTicker] panicked *)

Record run_state : Type := mkRun {
  r_world : world;
  r_stopper : nat;            (* values buffered in [stopper], capacity 1 *)
  r_done : nat;               (* sends on [done] *)
  r_ext : bool;               (* the external context is done *)
  r_timer : bool;             (* a tick is buffered in [ticker.C] *)
  r_ticks : nat;              (* [runAction] calls made by the loop *)
  r_handled : list error;     (* arguments of the error handler, latest first *)
  r_trace : list hook_event;  (* hooks run so far, oldest first *)
  r_status : run_status
}.

Inductive select_arm : Type :=
| ArmDone      (* case <-ctx.Done() *)
| ArmStopper   (* case <-worker.stopper *)
| ArmTick.     (* case <-ticker.C *)

Inductive run_event : Type :=
| EnvCancel            (* the external context is cancelled *)
| EnvTimer             (* the ticker fires *)
| Select (a : select_arm).

Section RunLoop.
(** [runAction]: its result, the number of calls of the [stop] callback
    made meanwhile, the hooks it ran, and the new state. *)
Variable runAction : world -> option error * nat * list hook_event * world.
Variable errorHandler : option (error -> bool).
Variable fromStart : bool.
Variable duration : Z.

Definition set_status (s : run_status) (st : run_state) : run_state :=
  mkRun (r_world st) (r_stopper st) (r_done st) (r_ext st) (r_timer st)
        (r_ticks st) (r_handled st) (r_trace st) s.

(** [worker.stopper <- struct{}{}] on a channel of capacity 1 that only
    the loop reads. *)
Definition send_stopper (st : run_state) : run_state :=
  match r_status st with
  | Running =>
      if (r_stopper st <? 1)%nat then
        mkRun (r_world st) (S (r_stopper st)) (r_done st) (r_ext st)
              (r_timer st) (r_ticks st) (r_handled st) (r_trace st) Running
      else set_status Blocked st
  | _ => st
  end.

Fixpoint send_stopper_n (n : nat) (st : run_state) : run_state :=
  match n with
  | O => st
  | S k => send_stopper_n k (send_stopper st)
  end.

(** [worker.done <- struct{}{}; return] *)
Definition send_done_return (st : run_state) : run_state :=
  mkRun (r_world st) (r_stopper st) (S (r_done st)) (r_ext st) (r_timer st)
        (r_ticks st) (r_handled st) (r_trace st) Returned.

(** [if err := worker.runAction(); err != nil { ... }] *)
Definition run_and_handle (count : bool) (st : run_state) : run_state :=
  let '(err, stops, tr, w1) := runAction (r_world st) in
  let st1 :=
    send_stopper_n stops
      (mkRun w1 (r_stopper st) (r_done st) (r_ext st) (r_timer st)
             (if count then S (r_ticks st) else r_ticks st)
             (r_handled st) (r_trace st ++ tr) (r_status st)) in
  match r_status st1, err with
  | Running, Some e =>
      match errorHandler with
      | Some h =>
          let st2 :=
            mkRun (r_world st1) (r_stopper st1) (r_done st1) (r_ext st1)
                  (r_timer st1) (r_ticks st1) (e :: r_handled st1)
                  (r_trace st1) Running in
          if h e then st2 else send_stopper st2
      | None => st1
      end
  | _, _ => st1
  end.

Definition run_init (w : world) : run_state :=
  mkRun w 0 0 false false 0 [] [] Running.

(** [Run] up to the start of the loop: the first run when [fromStart] is
    set, then [time.NewTicker(worker.duration)], which panics on a
    duration that is not positive. *)
Definition Run_start (w : world) : run_state :=
  let st := if fromStart then run_and_handle false (run_init w)
            else run_init w in
  match r_status st with
  | Running => if (duration <=? 0)%Z then set_status Crashed st else st
  | _ => st
  end.

(** One [select] of the loop; [None] when the arm is not ready. *)
Definition loop_select (a : select_arm) (st : run_state)
  : option run_state :=
  match r_status st with
  | Running =>
      match a with
      | ArmDone => if r_ext st then Some (send_done_return st) else None
      | ArmStopper =>
          match r_stopper st with
          | S k =>
              Some (send_done_return
                      (mkRun (r_world st) k (r_done st) (r_ext st)
                             (r_timer st) (r_ticks st) (r_handled st)
                             (r_trace st) Running))
          | O => None
          end
      | ArmTick =>
          if r_timer st then
            Some (run_and_handle true
                    (mkRun (r_world st) (r_stopper st) (r_done st)
                           (r_ext st) false (r_ticks st) (r_handled st)
                           (r_trace st) Running))
          else None
      end
  | _ => None
  end.

Definition run_step (e : run_event) (st : run_state) : option run_state :=
  match e with
  | EnvCancel =>
      Some (mkRun (r_world st) (r_stopper st) (r_done st) true (r_timer st)
                  (r_ticks st) (r_handled st) (r_trace st) (r_status st))
  | EnvTimer =>
      Some (mkRun (r_world st) (r_stopper st) (r_done st) (r_ext st) true
                  (r_ticks st) (r_handled st) (r_trace st) (r_status st))
  | Select a => loop_select a st
  end.

Fixpoint run_exec (evs : list run_event) (st : run_state)
  : option run_state :=
  match evs with
  | [] => Some st
  | e :: rest =>
      match run_step e st with
      | Some st1 => run_exec rest st1
      | None => None
      end
  end.

(** [Run] followed by the events [evs]. *)
Definition Run (evs : list run_event) (w : world) : option run_state :=
  run_exec evs (Run_start w).
End RunLoop.

(** Not returned yet, and nothing sent on [done]. *)
Definition pending (st : run_state) : Prop :=
  r_done st = 0%nat /\ r_status st <> Returned.

(** [done] has been sent once when the loop has returned, and not at all
    before. *)
Definition done_once (st : run_state) : Prop :=
  r_done st = match r_status st with Returned => 1%nat | _ => 0%nat end.

(** ** The worker with middlewares *)

Module MW.

Definition Action : Type := context -> world -> outcome * world.
Definition Middleware : Type := context -> world -> outcome * world.

(** The channels [stopper] and [done] live in [run_state]; the teardown
    callback only receives a function that waits on [done]. *)
Record Worker : Type := mkWorker {
  name : string;
  fromStart : bool;
  duration : Z;
  action : Action;
  errorHandler : option (error -> bool);
  timeout : Z;
  amIMaster : bool;
  beforeMiddlewares : list Middleware;
  afterMiddlewares : list Middleware
}.

Definition NewWorker (master : bool) (name : string) (duration : Z)
           (action : Action) : Worker :=
  mkWorker name false duration action None 0 master [] [].

Definition FromStart (b : bool) (wk : Worker) : Worker :=
  mkWorker (name wk) b (duration wk) (action wk) (errorHandler wk)
           (timeout wk) (amIMaster wk) (beforeMiddlewares wk)
           (afterMiddlewares wk).

Definition Timeout (t : Z) (wk : Worker) : Worker :=
  mkWorker (name wk) (fromStart wk) (duration wk) (action wk)
           (errorHandler wk) t (amIMaster wk) (beforeMiddlewares wk)
           (afterMiddlewares wk).

Definition ErrorHandler (handler : option (error -> bool)) (wk : Worker)
  : Worker :=
  match handler with
  | None => wk
  | Some h =>
      mkWorker (name wk) (fromStart wk) (duration wk) (action wk) (Some h)
               (timeout wk) (amIMaster wk) (beforeMiddlewares wk)
               (afterMiddlewares wk)
  end.

Definition BeforeMiddlewares (ms : list Middleware) (wk : Worker) : Worker :=
  mkWorker (name wk) (fromStart wk) (duration wk) (action wk)
           (errorHandler wk) (timeout wk) (amIMaster wk)
           (beforeMiddlewares wk ++ ms) (afterMiddlewares wk).

Definition AfterMiddlewares (ms : list Middleware) (wk : Worker) : Worker :=
  mkWorker (name wk) (fromStart wk) (duration wk) (action wk)
           (errorHandler wk) (timeout wk) (amIMaster wk)
           (beforeMiddlewares wk) (afterMiddlewares wk ++ ms).

(** The context of one tick and the cancel function to defer, if any. *)
Definition tick_context (wk : Worker) (w : world)
  : context * option nat * world :=
  let ctx := Background in
  let ctx := if amIMaster wk then WithValue ctx else ctx in
  if (timeout wk >? 0)%Z then
    let k := w_next w in
    (WithTimeout ctx (duration_add (timeout wk) Second) k, Some k,
     mkWorld (w_store w) (w_faults w) (w_cancelled w) (S k) (w_log w)
             (w_locker w) (w_watcher_cancel w))
  else (ctx, None, w).

(** The [for _, middleware := range worker.beforeMiddlewares] loop, from
    index [i] on: the panic that ended it if any, the flag [locked], the
    hooks run, the state. *)
Fixpoint run_before (ctx : context) (ms : list Middleware) (i : nat)
         (locked : bool) (w : world)
  : option string * bool * list hook_event * world :=
  match ms with
  | [] => (None, locked, [], w)
  | m :: rest =>
      if locked then (None, locked, [], w) (* break *)
      else
        match m ctx w with
        | (Return None, w1) =>
            let '(p, l, tr, w2) := run_before ctx rest (S i) false w1 in
            (p, l, RanBefore i :: tr, w2)
        | (Return (Some e), w1) =>
            if errors_Is e ErrLocked then
              let '(p, l, tr, w2) := run_before ctx rest (S i) true w1 in
              (p, l, RanBefore i :: tr, w2)
            else
              let '(p, l, tr, w2) := run_before ctx rest (S i) false w1 in
              (p, l,
               RanBefore i :: LogError "Worker before middleware" e :: tr,
               w2)
        | (Panic v, w1) => (Some v, false, [RanBefore i], w1)
        end
  end.

(** The loop over [worker.afterMiddlewares] of the deferred function. *)
Fixpoint run_after (ctx : context) (ms : list Middleware) (i : nat)
         (w : world) : option string * list hook_event * world :=
  match ms with
  | [] => (None, [], w)
  | m :: rest =>
      match m ctx w with
      | (Return None, w1) =>
          let '(p, tr, w2) := run_after ctx rest (S i) w1 in
          (p, RanAfter i :: tr, w2)
      | (Return (Some e), w1) =>
          let '(p, tr, w2) := run_after ctx rest (S i) w1 in
          (p, RanAfter i :: LogError "Worker after middleware" e :: tr, w2)
      | (Panic v, w1) => (Some v, [RanAfter i], w1)
      end
  end.

(** The function handed to [errorx.TryContext]. *)
Definition tick_body (wk : Worker) (ctx : context) (w : world)
  : outcome * list hook_event * world :=
  let '(p, locked, tr1, w1) :=
    run_before ctx (beforeMiddlewares wk) 0 false w in
  match p with
  | Some v => (Panic v, tr1, w1) (* the defer is not registered yet *)
  | None =>
      if locked then (Return None, tr1, w1)
      else
        let '(r, w2) := action wk ctx w1 in
        let '(p2, tr2, w3) := run_after ctx (afterMiddlewares wk) 0 w2 in
        match p2 with
        | Some v => (Panic v, tr1 ++ RanAction :: tr2, w3)
        | None => (r, tr1 ++ RanAction :: tr2, w3)
        end
  end.

(** [errorx.TryContext] (a library outside this repository): the error of
    the function, or, when it panicked, the library's one error for a
    recovered panic, whatever the panic value. *)
Definition TryContext (r : outcome) : option error :=
  match r with
  | Return e => e
  | Panic _ => Some ErrPanicRecover
  end.

Definition runAction (wk : Worker) (w : world)
  : option error * list hook_event * world :=
  let '(ctx, cancel, w0) := tick_context wk w in
  let '(r, tr, w1) := tick_body wk ctx w0 in
  let tr1 :=
    match TryContext r with
    | Some err => tr ++ [LogError "Worker action failed" err]
    | None => tr
    end in
  let w2 := match cancel with
            | Some k => call_cancel k w1 (* defer cancel() *)
            | None => w1
            end in
  (None, tr1, w2).

(** The action of this worker has no [stop] callback. *)
Definition mw_runAction (wk : Worker) (w : world)
  : option error * nat * list hook_event * world :=
  let '(err, tr, w1) := runAction wk w in (err, 0%nat, tr, w1).

Definition Run (wk : Worker) (evs : list run_event) (w : world)
  : option run_state :=
  Run (mw_runAction wk) (errorHandler wk) (fromStart wk) (duration wk) evs w.

Definition step (wk : Worker) (e : run_event) (st : run_state)
  : option run_state :=
  run_step (mw_runAction wk) (errorHandler wk) e st.

End MW.

(** ** The worker with an external context and a [stop] callback *)

Module CW.

(** An action returns or panics, and calls [stop] some number of times. *)
Definition Action : Type := context -> world -> outcome * nat * world.

Record Worker : Type := mkWorker {
  ctx : context;
  name : string;
  fromStart : bool;
  duration : Z;
  action : Action;
  errorHandler : option (error -> bool);
  timeout : Z
}.

Definition New (ctx : context) (name : string) (duration : Z)
           (action : Action) : Worker :=
  mkWorker ctx name false duration action None 0.

Definition FromStart (b : bool) (wk : Worker) : Worker :=
  mkWorker (ctx wk) (name wk) b (duration wk) (action wk) (errorHandler wk)
           (timeout wk).

Definition Timeout (t : Z) (wk : Worker) : Worker :=
  mkWorker (ctx wk) (name wk) (fromStart wk) (duration wk) (action wk)
           (errorHandler wk) t.

Definition ErrorHandler (handler : option (error -> bool)) (wk : Worker)
  : Worker :=
  match handler with
  | None => wk
  | Some h =>
      mkWorker (ctx wk) (name wk) (fromStart wk) (duration wk) (action wk)
               (Some h) (timeout wk)
  end.

(** [fmt.Sprintf("%v", recover())]; [recover()] is [nil] when nothing
    panicked. *)
Definition Sprintf_v (recovered : option string) : string :=
  match recovered with
  | None => "<nil>"
  | Some v => v
  end.

(** [try]: [err] is the named result at the time the deferred function
    runs, [nil] when [fn] panicked. *)
Definition try (r : outcome) : option error :=
  let '(err, recovered) :=
    match r with
    | Return e => (e, None)
    | Panic v => (None, Some v)
    end in
  match err with
  | None => Some (ErrNew (Sprintf_v recovered))
  | Some e => Some e
  end.

Definition tick_context (wk : Worker) (w : world)
  : context * option nat * world :=
  let ctx := Background in
  if (duration wk >? 0)%Z then
    let k := w_next w in
    (WithTimeout ctx (duration wk) k, Some k,
     mkWorld (w_store w) (w_faults w) (w_cancelled w) (S k) (w_log w)
             (w_locker w) (w_watcher_cancel w))
  else (ctx, None, w).

Definition runAction (wk : Worker) (w : world)
  : option error * nat * list hook_event * world :=
  let '(ctx, cancel, w0) := tick_context wk w in
  let '(r, stops, w1) := action wk ctx w0 in
  let w2 := match cancel with
            | Some k => call_cancel k w1 (* defer cancel() *)
            | None => w1
            end in
  (try r, stops, [RanAction], w2).

Definition Run (wk : Worker) (evs : list run_event) (w : world)
  : option run_state :=
  Run (runAction wk) (errorHandler wk) (fromStart wk) (duration wk) evs w.

Definition step (wk : Worker) (e : run_event) (st : run_state)
  : option run_state :=
  run_step (runAction wk) (errorHandler wk) e st.

End CW.

(** The call made by a renewal tick. *)
Definition renew_call (w : world) : client_call :=
  CallEval renew_script [lockKey (w_locker w)]
           [LStr (lockValue (w_locker w));
            LInt (duration_whole_seconds (lockTTL (w_locker w)))].

(** ** Sample workers *)

Definition mw_ok : MW.Middleware := fun _ w => (Return None, w).

Definition mw_fail : MW.Middleware :=
  fun _ w => (Return (Some (ErrNew "boom")), w).

Definition action_ok : MW.Action := fun _ w => (Return None, w).

Definition action_fail : MW.Action :=
  fun _ w => (Return (Some (ErrNew "boom")), w).

Definition never_continue : error -> bool := fun _ => false.

(** A worker guarded by the lock, with a failing side hook before it. *)
Definition guarded_worker : MW.Worker :=
  MW.AfterMiddlewares [UnlockMiddleware]
    (MW.BeforeMiddlewares [mw_fail; LockMiddleware; mw_ok]
       (MW.NewWorker false "job" Second action_ok)).

(** A worker whose action fails and whose handler asks to stop. *)
Definition failing_worker : MW.Worker :=
  MW.ErrorHandler (Some never_continue)
    (MW.NewWorker false "job" Second action_fail).

(** A worker with a timeout of five seconds. *)
Definition timed_worker : MW.Worker :=
  MW.Timeout (5 * Second) (MW.NewWorker false "job" Second action_ok).

Definition cw_action_ok : CW.Action := fun _ w => (Return None, 0%nat, w).

Definition cw_action_fail : CW.Action :=
  fun _ w => (Return (Some (ErrNew "boom")), 0%nat, w).

(** A worker whose action fails, with a handler that asks to stop. *)
Definition cw_failing_worker : CW.Worker :=
  CW.ErrorHandler (Some never_continue)
    (CW.New AppContext "job" Second cw_action_fail).

(** A worker whose action succeeds, with a handler that asks to stop. *)
Definition cw_quiet_worker : CW.Worker :=
  CW.ErrorHandler (Some never_continue)
    (CW.New AppContext "job" Second cw_action_ok).

(** ** Notions used by the further properties *)

(** The value of a hexadecimal digit, and decoding as [hex.DecodeString]
    would do it. *)
Definition hex_value (a : ascii) : option N :=
  match a with
  | "0" => Some 0%N | "1" => Some 1%N | "2" => Some 2%N | "3" => Some 3%N
  | "4" => Some 4%N | "5" => Some 5%N | "6" => Some 6%N | "7" => Some 7%N
  | "8" => Some 8%N | "9" => Some 9%N | "a" => Some 10%N | "b" => Some 11%N
  | "c" => Some 12%N | "d" => Some 13%N | "e" => Some 14%N | "f" => Some 15%N
  | _ => None
  end%char.

Definition hex_decode_byte (hi lo : ascii) : option Byte.byte :=
  match hex_value hi, hex_value lo with
  | Some h, Some l => Byte.of_N (h * 16 + l)
  | _, _ => None
  end.

Fixpoint hex_DecodeString (s : string) : option (list Byte.byte) :=
  match s with
  | EmptyString => Some []
  | String hi (String lo rest) =>
      match hex_decode_byte hi lo, hex_DecodeString rest with
      | Some b, Some bs => Some (b :: bs)
      | _, _ => None
      end
  | String _ EmptyString => None
  end.

(** The state left by a list of hooks, each applied under [c] to the state
    left by the one before it. *)
Fixpoint apply_hooks (c : context) (ms : list MW.Middleware) (w : world)
  : world :=
  match ms with
  | [] => w
  | m :: rest => apply_hooks c rest (m c w).2
  end.

(** Every hook of the list, applied in turn from [w], has an outcome that
    satisfies [ok]. *)
Fixpoint hooks_all (ok : outcome -> Prop) (c : context)
         (ms : list MW.Middleware) (w : world) : Prop :=
  match ms with
  | [] => True
  | m :: rest => ok (m c w).1 /\ hooks_all ok c rest (m c w).2
  end.

(** The hook returned, and not the lock-contention error. *)
Definition calm (o : outcome) : Prop :=
  match o with
  | Return None => True
  | Return (Some e) => errors_Is e ErrLocked = false
  | Panic _ => False
  end.

(** The hook returned. *)
Definition returned (o : outcome) : Prop :=
  match o with
  | Return _ => True
  | Panic _ => False
  end.

(** Two hooks that do the same under the context [c]. *)
Definition agree_under (c : context) (m m' : MW.Middleware) : Prop :=
  forall w : world, m c w = m' c w.

(** The deferred [cancel()] at the end of [runAction]. *)
Definition finish_tick (cancel : option nat) (w : world) : world :=
  match cancel with
  | Some k => call_cancel k w
  | None => w
  end.

(** One run of the action of the worker with a [stop] callback: the
    action under the context of the tick, then the deferred [cancel()]. *)
Definition one_run (wk : CW.Worker) (w : world) : world :=
  finish_tick (CW.tick_context wk w).1.2
    (CW.action wk (CW.tick_context wk w).1.1 (CW.tick_context wk w).2).2.

(** Hooks and an action that leave a mark in the effect log. *)
Definition mw_mark (k : nat) : MW.Middleware :=
  fun _ w => (Return None, call_cancel k w).

Definition action_mark (k : nat) : MW.Action :=
  fun _ w => (Return None, call_cancel k w).

(** A worker with a failing side hook, then the lock, whose action and
    after-middleware leave the marks 77 and 88. *)
Definition marked_worker : MW.Worker :=
  MW.AfterMiddlewares [mw_mark 88]
    (MW.BeforeMiddlewares [mw_fail; LockMiddleware]
       (MW.NewWorker false "job" Second (action_mark 77))).

(** An action that records the deadline of the context it is called
    under. *)
Definition action_report_deadline : MW.Action :=
  fun c w =>
    (Return None,
     match ctx_deadline c with
     | Some d => call_cancel (Z.to_nat (d / Second)) w
     | None => w
     end).

(** A worker with a timeout of five seconds whose action records its
    deadline. *)
Definition reporting_worker : MW.Worker :=
  MW.Timeout (5 * Second)
    (MW.NewWorker false "job" Second action_report_deadline).

(** The hooks of a trace, without the log entries. *)
Definition is_hook (e : hook_event) : bool :=
  match e with
  | LogError _ _ => false
  | _ => true
  end.

Definition hooks_run (tr : list hook_event) : list hook_event :=
  List.filter is_hook tr.

(** A middleware that returns, and never the lock-contention error. *)
Definition no_contention (m : MW.Middleware) : Prop :=
  forall (c : context) (w : world),
    match (m c w).1 with
    | Return None => True
    | Return (Some e) => errors_Is e ErrLocked = false
    | Panic _ => False
    end.

(** A middleware that never panics. *)
Definition no_panic (m : MW.Middleware) : Prop :=
  forall (c : context) (w : world),
    match (m c w).1 with
    | Return _ => True
    | Panic _ => False
    end.

Definition action_panic : MW.Action := fun _ w => (Panic "bang", w).

Definition mw_panic : MW.Middleware := fun _ w => (Panic "bang", w).

(** A worker guarded by the lock alone. *)
Definition lock_worker : MW.Worker :=
  MW.BeforeMiddlewares [LockMiddleware]
    (MW.NewWorker false "job" Second action_ok).

(** A worker with two hooks on each side and a panicking action. *)
Definition hooked_worker : MW.Worker :=
  MW.AfterMiddlewares [mw_fail; mw_ok]
    (MW.BeforeMiddlewares [mw_ok; mw_fail]
       (MW.NewWorker true "job" Second action_panic)).

(** A worker whose second before-middleware panics. *)
Definition panicking_worker : MW.Worker :=
  MW.AfterMiddlewares [mw_ok]
    (MW.BeforeMiddlewares [mw_ok; mw_panic; mw_ok]
       (MW.NewWorker true "job" Second action_ok)).

(** A worker whose hooks and action leave the marks 1 to 5. *)
Definition ordered_worker : MW.Worker :=
  MW.AfterMiddlewares [mw_mark 4; mw_mark 5]
    (MW.BeforeMiddlewares [mw_mark 1; mw_mark 2]
       (MW.NewWorker false "job" Second (action_mark 3))).

(** A worker whose second before-middleware panics, the others leaving
    marks. *)
Definition panicking_marked_worker : MW.Worker :=
  MW.AfterMiddlewares [mw_mark 4]
    (MW.BeforeMiddlewares [mw_mark 1; mw_panic; mw_mark 2]
       (MW.NewWorker false "job" Second (action_mark 3))).

(** An action that leaves the mark 7 and never calls [stop]. *)
Definition cw_action_mark : CW.Action :=
  fun _ w => (Return None, 0%nat, call_cancel 7 w).

(** A worker that starts at once and leaves a mark at each run. *)
Definition cw_marked_worker : CW.Worker :=
  CW.FromStart true (CW.New AppContext "job" Second cw_action_mark).

(** An action that calls [stop] twice before returning. *)
Definition cw_action_stop_twice : CW.Action :=
  fun _ w => (Return None, 2%nat, w).

Definition cw_stopping_worker : CW.Worker :=
  CW.New AppContext "job" Second cw_action_stop_twice.

(** An action that calls [stop] once; the handler declines to continue. *)
Definition cw_action_stop_once : CW.Action :=
  fun _ w => (Return (Some (ErrNew "boom")), 1%nat, w).

Definition cw_stop_and_decline_worker : CW.Worker :=
  CW.ErrorHandler (Some never_continue)
    (CW.New AppContext "job" Second cw_action_stop_once).

(** * Whole seconds of a duration *)

Section DurationFacts.
Local Open Scope Z_scope.

Lemma div_nearest_even_upper a b :
  0 < b -> 2 * b * div_nearest_even a b <= 2 * a + b.
Proof.
  intros Hb. unfold div_nearest_even.
  pose proof (Z.div_mod a b ltac:(lia)) as Hdm.
  pose proof (Z.mod_pos_bound a b Hb) as Hr.
  destruct (2 * (a mod b) <? b) eqn:H1; [apply Z.ltb_lt in H1; nia|].
  apply Z.ltb_ge in H1.
  destruct (b <? 2 * (a mod b)) eqn:H2; [apply Z.ltb_lt in H2; nia|].
  apply Z.ltb_ge in H2.
  destruct (Z.even (a / b)); nia.
Qed.

Lemma div_nearest_even_lower a b K :
  0 < b -> K * b <= a -> K <= div_nearest_even a b.
Proof.
  intros Hb HK. unfold div_nearest_even.
  assert (Hq : K <= a / b) by (apply Z.div_le_lower_bound; lia).
  destruct (2 * (a mod b) <? b); [lia|].
  destruct (b <? 2 * (a mod b)); [lia|].
  destruct (Z.even (a / b)); lia.
Qed.

Lemma ratio_log2_lower n d :
  0 < n -> 0 < d -> scaled_le d (ratio_log2 n d) n = true.
Proof.
  intros Hn Hd. unfold ratio_log2.
  destruct (scaled_le d (Z.log2 n - Z.log2 d) n) eqn:Ht; [exact Ht|].
  pose proof (Z.log2_spec n Hn) as [Hn1 Hn2].
  pose proof (Z.log2_spec d Hd) as [Hd1 Hd2].
  pose proof (Z.log2_nonneg n) as Hln. pose proof (Z.log2_nonneg d) as Hld.
  unfold scaled_le.
  destruct (0 <=? Z.log2 n - Z.log2 d - 1) eqn:Hk.
  - apply Z.leb_le in Hk. apply Z.leb_le.
    assert (E : 2 ^ Z.log2 n
                = 2 ^ (Z.log2 d + 1) * 2 ^ (Z.log2 n - Z.log2 d - 1)).
    { rewrite <- Z.pow_add_r by lia. f_equal. lia. }
    assert (0 < 2 ^ (Z.log2 n - Z.log2 d - 1))
      by (apply Z.pow_pos_nonneg; lia).
    nia.
  - apply Z.leb_gt in Hk. apply Z.leb_le.
    assert (E : 2 ^ (Z.log2 d + 1)
                = 2 ^ Z.log2 n * 2 ^ (- (Z.log2 n - Z.log2 d - 1))).
    { rewrite <- Z.pow_add_r by lia. f_equal. lia. }
    assert (0 < 2 ^ (- (Z.log2 n - Z.log2 d - 1)))
      by (apply Z.pow_pos_nonneg; lia).
    nia.
Qed.

Lemma scaled_le_bound n d ex B :
  0 < d -> 0 <= B -> n < d * 2 ^ B -> scaled_le d ex n = true -> ex < B.
Proof.
  intros Hd HB Hn Hs. destruct (Z.lt_ge_cases ex B) as [|Hge]; [assumption|].
  exfalso. unfold scaled_le in Hs.
  replace (0 <=? ex) with true in Hs by (symmetry; apply Z.leb_le; lia).
  apply Z.leb_le in Hs.
  assert (2 ^ B <= 2 ^ ex) by (apply Z.pow_le_mono_r; lia).
  nia.
Qed.

(** Rounding a ratio under [2^B]: the result has more than [52 - B]
    fractional bits and is within half a unit of the last one. *)
Lemma round_binary64_bounds n d B :
  0 < n -> 0 < d -> 0 <= B <= 52 -> n < d * 2 ^ B ->
  exists M s,
    round_binary64 n d = (M, 2 ^ s) /\ 52 - B < s /\
    2 * d * M <= 2 * n * 2 ^ s + d /\
    forall K, K * d <= n * 2 ^ s -> K <= M.
Proof.
  intros Hn Hd HB Hlt. unfold round_binary64.
  replace (n =? 0) with false by (symmetry; apply Z.eqb_neq; lia).
  pose proof (scaled_le_bound n d _ B Hd (proj1 HB) Hlt
                (ratio_log2_lower n d Hn Hd)) as Hex.
  cbv zeta.
  replace (0 <=? 52 - ratio_log2 n d) with true
    by (symmetry; apply Z.leb_le; lia).
  eexists _, _. split; [reflexivity|]. split; [lia|]. split.
  - pose proof (div_nearest_even_upper (n * 2 ^ (52 - ratio_log2 n d)) d Hd).
    lia.
  - intros K HK. apply div_nearest_even_lower; assumption.
Qed.

(** An integer under [2^53] is a [float64]. *)
Lemma round_binary64_int a :
  0 <= a < 2 ^ 53 ->
  exists den, 0 < den /\ round_binary64 a 1 = (a * den, den).
Proof.
  intros Ha. unfold round_binary64.
  destruct (a =? 0) eqn:E.
  - apply Z.eqb_eq in E. subst. exists 1. split; [lia | reflexivity].
  - apply Z.eqb_neq in E. assert (Hpos : 0 < a) by lia.
    assert (Hex : ratio_log2 a 1 = Z.log2 a).
    { unfold ratio_log2. rewrite Z.log2_1, Z.sub_0_r.
      unfold scaled_le.
      replace (0 <=? Z.log2 a) with true
        by (symmetry; apply Z.leb_le, Z.log2_nonneg).
      replace (1 * 2 ^ Z.log2 a <=? a) with true; [reflexivity|].
      symmetry. apply Z.leb_le. pose proof (Z.log2_spec a Hpos). lia. }
    cbv zeta. rewrite Hex.
    assert (Hl : Z.log2 a < 53) by (apply Z.log2_lt_pow2; lia).
    replace (0 <=? 52 - Z.log2 a) with true
      by (symmetry; apply Z.leb_le; lia).
    exists (2 ^ (52 - Z.log2 a)). split; [apply Z.pow_pos_nonneg; lia|].
    f_equal. unfold div_nearest_even. rewrite Z.div_1_r, Z.mod_1_r.
    reflexivity.
Qed.

(** [float64(nsec)/1e9] stays under [1 - 2^-30]. *)
Lemma fraction_bounds nsec :
  0 <= nsec < 1000000000 ->
  exists qn qd,
    float64_div (float64_of_int nsec) (float64_of_int 1000000000) = (qn, qd)
    /\ 0 <= qn /\ 0 < qd /\ 2 ^ 30 * qn < (2 ^ 30 - 1) * qd.
Proof.
  intros Hn. unfold float64_div, float64_of_int.
  destruct (round_binary64_int nsec ltac:(lia)) as (ad & Had & ->).
  destruct (round_binary64_int 1000000000 ltac:(lia)) as (bd & Hbd & ->).
  cbn [fst snd].
  destruct (Z.eq_dec nsec 0) as [->|Hnz].
  - exists 0, 1. split; [reflexivity|]. lia.
  - assert (Hn' : 0 < nsec * ad * bd) by nia.
    assert (Hd' : 0 < ad * (1000000000 * bd)) by nia.
    destruct (round_binary64_bounds (nsec * ad * bd)
                (ad * (1000000000 * bd)) 0 Hn' Hd' ltac:(lia) ltac:(nia))
      as (M & s & -> & Hs & Hup & Hlow).
    exists M, (2 ^ s). split; [reflexivity|].
    assert (HF : 2 ^ 53 <= 2 ^ s) by (apply Z.pow_le_mono_r; lia).
    assert (HM : 0 <= M) by (apply Hlow; nia).
    split; [exact HM|]. split; [lia|].
    set (F := 2 ^ s) in *. clearbody F.
    assert (Hup' : 2 * 1000000000 * M <= 2 * nsec * F + 1000000000).
    { assert (Hc : 0 < ad * bd) by nia.
      apply (Z.mul_le_mono_pos_r _ _ (ad * bd) Hc). nia. }
    assert (2 ^ 53 = 9007199254740992) by reflexivity.
    assert (2 ^ 30 = 1073741824) by reflexivity.
    nia.
Qed.

(** Under 2^24 seconds the detour through [float64] loses nothing:
    [int(d.Seconds())] is the integer quotient. *)
Lemma whole_seconds_small d :
  0 <= d < 2 ^ 24 * Second -> duration_whole_seconds d = d / Second.
Proof.
  intros Hd. unfold duration_whole_seconds.
  replace (0 <=? d) with true by (symmetry; apply Z.leb_le; lia).
  unfold Duration_Seconds, float64_to_int.
  assert (Hsec : 0 <= d / Second < 2 ^ 24).
  { split; [apply Z.div_pos; unfold Second; lia|].
    apply Z.div_lt_upper_bound; unfold Second in *; lia. }
  assert (Hns : 0 <= d mod Second < 1000000000)
    by (apply Z.mod_pos_bound; reflexivity).
  set (sec := d / Second) in *. set (nsec := d mod Second) in *.
  clearbody sec nsec.
  destruct (fraction_bounds nsec Hns) as (qn & qd & -> & Hqn & Hqd & Hq).
  unfold float64_add, float64_of_int.
  destruct (round_binary64_int sec) as (sd & Hsd & ->).
  { assert (2 ^ 24 < 2 ^ 53) by reflexivity. lia. }
  cbn [fst snd].
  assert (E30 : 2 ^ 30 = 1073741824) by reflexivity.
  assert (E24 : 2 ^ 24 = 16777216) by reflexivity.
  assert (Hlt : qn < qd) by lia.
  destruct (Z.eq_dec (sec * sd * qd + qn * sd) 0) as [Hz|Hnz].
  - unfold round_binary64. rewrite Hz. cbn [Z.eqb fst snd].
    assert (sec = 0) by nia. subst sec. reflexivity.
  - assert (HN : 0 < sec * sd * qd + qn * sd) by nia.
    assert (HD : 0 < sd * qd) by nia.
    destruct (round_binary64_bounds _ _ 24 HN HD ltac:(lia) ltac:(nia))
      as (M & s & -> & Hs & Hup & Hlow).
    cbn [fst snd].
    assert (HF : 2 ^ 29 <= 2 ^ s) by (apply Z.pow_le_mono_r; lia).
    assert (E29 : 2 ^ 29 = 536870912) by reflexivity.
    set (F := 2 ^ s) in *. clearbody F.
    assert (Hl : sec * F <= M) by (apply Hlow; nia).
    assert (Hu : M < (sec + 1) * F).
    { destruct (Z.lt_ge_cases M ((sec + 1) * F)) as [|Hge]; [assumption|].
      exfalso.
      assert (H1 : 2 * (sd * qd) * ((sec + 1) * F)
                   <= 2 * (sec * sd * qd + qn * sd) * F + sd * qd) by nia.
      assert (H2 : sd * (2 * F * (qd - qn)) <= sd * qd) by lia.
      assert (H3 : 2 * F * (qd - qn) <= qd)
        by (apply (Z.mul_le_mono_pos_l _ _ sd Hsd); exact H2).
      nia. }
    symmetry. apply (Z.div_unique_pos M F sec (M - sec * F)); lia.
Qed.

(** From 2^24 seconds on the sum can round up to the next second; and the
    model agrees with the Standard Library's IEEE 754 arithmetic on
    durations of every size and sign. *)
Lemma whole_seconds_float_samples :
  duration_whole_seconds 16777216999999999 = 16777217 /\
  Forall (fun d => duration_whole_seconds d = ieee_whole_seconds d)
         [0; 1; 999999999; 1000000000; 1500000000; 30000000000;
          16777215999999999; 16777216999999999; 9007199254740993;
          9223372036854775807; -1; -999999999; -2500000000;
          -16777216999999999; -9223372036854775808].
Proof.
  split; [vm_compute; reflexivity|].
  repeat (constructor; [vm_compute; reflexivity|]). constructor.
Qed.
End DurationFacts.

(** * Properties of the lock *)

Section LockFacts.
Implicit Types (w : world) (st : gmap string record).

Lemma lua_run_unlock key tok st :
  lua_run [key] [LStr tok] unlock_script st =
  if bool_decide (redis_get key st = LStr tok)
  then redis_del key st else (LInt 0, st).
Proof. reflexivity. Qed.

Lemma lua_run_renew key tok secs st :
  lua_run [key] [LStr tok; LInt secs] renew_script st =
  if bool_decide (redis_get key st = LStr tok)
  then redis_expire key secs st else (LInt 0, st).
Proof. reflexivity. Qed.

Lemma redis_get_LStr key tok st :
  redis_get key st = LStr tok <->
  exists r, st !! key = Some r /\ rec_value r = tok.
Proof.
  unfold redis_get. destruct (st !! key) as [r|]; split.
  - intros [= <-]. eauto.
  - intros (r' & [= <-] & <-). reflexivity.
  - discriminate.
  - intros (r' & [=] & _).
Qed.

Lemma client_Eval_store s keys argv w :
  w_store (client_Eval s keys argv w).2 =
  match coming_fault w with
  | FailBefore _ => w_store w
  | _ => (lua_run keys argv s (w_store w)).2
  end.
Proof.
  unfold client_Eval, coming_fault, next_fault. simpl.
  destruct (w_faults w) as [|[| |] fs]; simpl;
    try destruct (lua_run _ _ _ _); reflexivity.
Qed.

Lemma client_Eval_err s keys argv w :
  (client_Eval s keys argv w).1.2 =
  match coming_fault w with
  | NoFault => None
  | FailBefore e => Some e
  | FailAfter e => Some e
  end.
Proof.
  unfold client_Eval, coming_fault, next_fault. simpl.
  destruct (w_faults w) as [|[| |] fs]; simpl;
    try destruct (lua_run _ _ _ _); reflexivity.
Qed.

Lemma client_Eval_result s keys argv w :
  coming_fault w = NoFault ->
  (client_Eval s keys argv w).1.1 = (lua_run keys argv s (w_store w)).1.
Proof.
  unfold client_Eval, coming_fault, next_fault. simpl.
  destruct (w_faults w) as [|[| |] fs]; simpl; try discriminate;
    intros _; destruct (lua_run _ _ _ _); reflexivity.
Qed.

Lemma client_Eval_locker s keys argv w :
  w_locker (client_Eval s keys argv w).2 = w_locker w.
Proof.
  unfold client_Eval, next_fault. simpl.
  destruct (w_faults w) as [|[| |] fs]; simpl;
    try destruct (lua_run _ _ _ _); reflexivity.
Qed.

Lemma client_Eval_log s keys argv w :
  w_log (client_Eval s keys argv w).2 =
  EfCall (CallEval s keys argv) :: w_log w.
Proof.
  unfold client_Eval, next_fault. simpl.
  destruct (w_faults w) as [|[| |] fs]; simpl;
    try destruct (lua_run _ _ _ _); reflexivity.
Qed.

Lemma client_Eval_cancelled s keys argv w :
  w_cancelled (client_Eval s keys argv w).2 = w_cancelled w.
Proof.
  unfold client_Eval, next_fault. simpl.
  destruct (w_faults w) as [|[| |] fs]; simpl;
    try destruct (lua_run _ _ _ _); reflexivity.
Qed.

Lemma Unlock_store w :
  w_store (Unlock w).2 =
  match coming_fault w with
  | FailBefore _ => w_store w
  | _ =>
      if bool_decide (redis_get (lockKey (w_locker w)) (w_store w)
                      = LStr (lockValue (w_locker w)))
      then delete (lockKey (w_locker w)) (w_store w)
      else w_store w
  end.
Proof.
  unfold Unlock.
  set (w1 := match l_cancel (w_locker w) with
             | Some k => call_cancel k w | None => w end).
  assert (Hst : w_store w1 = w_store w)
    by (subst w1; destruct (l_cancel (w_locker w)); reflexivity).
  assert (Hf : coming_fault w1 = coming_fault w)
    by (subst w1; destruct (l_cancel (w_locker w)); reflexivity).
  pose proof (client_Eval_store unlock_script [lockKey (w_locker w)]
                [LStr (lockValue (w_locker w))] w1) as HE.
  destruct (client_Eval _ _ _ w1) as [[v err] w2]. cbn [snd] in HE |- *.
  rewrite HE, Hf, Hst, lua_run_unlock.
  destruct (coming_fault w); try reflexivity;
    case_bool_decide as Hget; try reflexivity;
    unfold redis_del; apply redis_get_LStr in Hget as (r & -> & _);
    reflexivity.
Qed.
End LockFacts.

Section LockerTheorems.
Implicit Types (w : world) (st : gmap string record).

Lemma client_SetNX_err key value ttl w :
  (client_SetNX key value ttl w).1.2 = None <-> coming_fault w = NoFault.
Proof.
  unfold client_SetNX, coming_fault, next_fault. simpl.
  destruct (w_faults w) as [|[| |] fs]; simpl;
    try destruct (redis_setnx _ _ _ _); simpl; split; congruence.
Qed.

Lemma TryLock_NoFault ctx w :
  coming_fault w = NoFault ->
  TryLock ctx w =
  match w_store w !! lockKey (w_locker w) with
  | Some _ =>
      (Some ErrLocked,
       (next_fault
          (log_effect (EfCall (CallSetNX (lockKey (w_locker w))
                                         (lockValue (w_locker w))
                                         (lockTTL (w_locker w)))) w)).2)
  | None =>
      (None,
       mkWorld (<[lockKey (w_locker w) :=
                    mkRecord (lockValue (w_locker w)) (lockTTL (w_locker w))]>
                  (w_store w))
               (tl (w_faults w)) (w_cancelled w) (S (w_next w))
               (EfGo GoRenewLock
                :: EfCall (CallSetNX (lockKey (w_locker w))
                                     (lockValue (w_locker w))
                                     (lockTTL (w_locker w)))
                :: w_log w)
               (mkLocker (lockKey (w_locker w)) (lockValue (w_locker w))
                         (lockTTL (w_locker w)) (renewInterval (w_locker w))
                         (Some (WithCancel ctx (w_next w)))
                         (Some (w_next w)))
               (w_watcher_cancel w))
  end.
Proof.
  destruct w as [st fs cs nx lg l wc].
  unfold TryLock, client_SetNX, coming_fault, next_fault, redis_setnx. simpl.
  destruct fs as [|[| |] fs]; simpl; try discriminate; intros _;
    destruct (st !! lockKey l); reflexivity.
Qed.

(** C4 (as amended): when the store call succeeds, [TryLock] returns
    [ErrLocked] if and only if the key is present in the store, whatever
    value it holds -- this instance's own token included; otherwise it
    returns nil, creates the record key = token with expiry ttl, binds
    [l.ctx] and [l.cancel] to a fresh cancellable child of [ctx] and
    starts the goroutine [renewLock]. *)
Theorem TryLock_locked_iff_key_present (ctx : context) (w : world) :
  (client_SetNX (lockKey (w_locker w)) (lockValue (w_locker w))
                (lockTTL (w_locker w)) w).1.2 = None ->
  ((TryLock ctx w).1 = Some ErrLocked <->
   is_Some (w_store w !! lockKey (w_locker w))) /\
  ((TryLock ctx w).1 = Some ErrLocked ->
   w_store (TryLock ctx w).2 = w_store w /\
   w_log (TryLock ctx w).2 =
     EfCall (CallSetNX (lockKey (w_locker w)) (lockValue (w_locker w))
                       (lockTTL (w_locker w)))
     :: w_log w) /\
  ((TryLock ctx w).1 = None <-> w_store w !! lockKey (w_locker w) = None) /\
  ((TryLock ctx w).1 = None ->
   w_store (TryLock ctx w).2 =
     <[lockKey (w_locker w) :=
         mkRecord (lockValue (w_locker w)) (lockTTL (w_locker w))]>
       (w_store w) /\
   w_log (TryLock ctx w).2 =
     EfGo GoRenewLock
     :: EfCall (CallSetNX (lockKey (w_locker w)) (lockValue (w_locker w))
                          (lockTTL (w_locker w)))
     :: w_log w /\
   l_ctx (w_locker (TryLock ctx w).2) = Some (WithCancel ctx (w_next w)) /\
   l_cancel (w_locker (TryLock ctx w).2) = Some (w_next w)).
Proof.
  intros Hok. apply client_SetNX_err in Hok.
  rewrite (TryLock_NoFault ctx w Hok).
  destruct (w_store w !! lockKey (w_locker w)) as [r|] eqn:Hk; simpl.
  - repeat split; try congruence; eauto;
      destruct w as [st fs cs nx lg l wc]; unfold next_fault; simpl;
      destruct fs; reflexivity.
  - repeat split; try congruence.
    intros [? ?]; discriminate.
Qed.

Lemma TryLock_locked_iff_key_present_witness :
  (TryLock Background (sample_world ∅ [])).1 = None /\
  (TryLock Background (sample_world store_foreign [])).1 = Some ErrLocked.
Proof.
  split.
  - apply (TryLock_locked_iff_key_present Background (sample_world ∅ [])).
    + vm_compute. reflexivity.
    + vm_compute. reflexivity.
  - apply (TryLock_locked_iff_key_present Background
             (sample_world store_foreign [])).
    + vm_compute. reflexivity.
    + vm_compute. eauto.
Defined.

(** C4 (as stated) fails: the key holds this instance's own token, the
    store call succeeds, and [TryLock] still returns [ErrLocked]. *)
Lemma TryLock_own_token_is_locked :
  (client_SetNX (lockKey sample_locker) (lockValue sample_locker)
                (lockTTL sample_locker) (sample_world store_own [])).1.2
  = None /\
  ~ ((TryLock Background (sample_world store_own [])).1 = Some ErrLocked <->
     exists r, store_own !! lockKey sample_locker = Some r /\
               rec_value r <> lockValue sample_locker).
Proof.
  split; [vm_compute; reflexivity|].
  intros [H _].
  destruct H as (r & Hr & Hne); [vm_compute; reflexivity|].
  vm_compute in Hr. injection Hr as <-. apply Hne. reflexivity.
Qed.

(** C5: [Unlock] deletes the stored record only if its current value is
    this instance's token; when the key holds another value (or is
    absent) the store is left as it was, so a record written by another
    instance survives.  When the value is the token and the call reaches
    the server, the record is deleted. *)
Theorem Unlock_deletes_only_own_record (w : world) :
  (w_store (Unlock w).2 = w_store w \/
   (owns (w_locker w) (w_store w) /\
    w_store (Unlock w).2 = delete (lockKey (w_locker w)) (w_store w))) /\
  (~ owns (w_locker w) (w_store w) -> w_store (Unlock w).2 = w_store w) /\
  (forall r : record,
      w_store w !! lockKey (w_locker w) = Some r ->
      rec_value r <> lockValue (w_locker w) ->
      w_store (Unlock w).2 !! lockKey (w_locker w) = Some r) /\
  (owns (w_locker w) (w_store w) ->
   (forall e, coming_fault w <> FailBefore e) ->
   w_store (Unlock w).2 = delete (lockKey (w_locker w)) (w_store w)).
Proof.
  rewrite Unlock_store. unfold owns.
  repeat split.
  - destruct (coming_fault w); try case_bool_decide; auto.
  - intros Hno. destruct (coming_fault w); try case_bool_decide;
      try reflexivity; contradiction.
  - intros r Hr Hne.
    assert (Hno : redis_get (lockKey (w_locker w)) (w_store w)
                  <> LStr (lockValue (w_locker w))).
    { intros (r' & Hr' & Hv)%redis_get_LStr. congruence. }
    destruct (coming_fault w); try case_bool_decide;
      try assumption; contradiction.
  - intros Hown Hf. destruct (coming_fault w) as [|e|e];
      try case_bool_decide; try reflexivity; try contradiction.
    exfalso. apply (Hf e). reflexivity.
Qed.

Lemma Unlock_deletes_only_own_record_witness :
  w_store (Unlock (sample_world store_foreign [])).2 = store_foreign /\
  w_store (Unlock (sample_world store_own [])).2 =
    delete "worker:lock:job" store_own.
Proof.
  split.
  - apply (Unlock_deletes_only_own_record (sample_world store_foreign [])).
    intros H. vm_compute in H. discriminate H.
  - apply (Unlock_deletes_only_own_record (sample_world store_own [])).
    + vm_compute. reflexivity.
    + intros e H. vm_compute in H. discriminate H.
Defined.

Lemma IsLocked_cases w :
  IsLocked w =
  match coming_fault w with
  | NoFault =>
      match redis_get (lockKey (w_locker w)) (w_store w) with
      | LStr v =>
          (String.eqb v (lockValue (w_locker w)),
           (client_Get (lockKey (w_locker w)) w).2)
      | _ => (false, (client_Get (lockKey (w_locker w)) w).2)
      end
  | _ => (false, (client_Get (lockKey (w_locker w)) w).2)
  end.
Proof.
  destruct w as [st fs cs nx lg l wc].
  unfold IsLocked, client_Get, coming_fault, next_fault. simpl.
  destruct fs as [|[| |] fs]; simpl; try reflexivity;
    destruct (redis_get (lockKey l) st); reflexivity.
Qed.

Lemma client_Get_cases w :
  (client_Get (lockKey (w_locker w)) w).1 =
  match coming_fault w with
  | NoFault =>
      match redis_get (lockKey (w_locker w)) (w_store w) with
      | LStr v => (v, None)
      | _ => (EmptyString, Some redis_Nil)
      end
  | FailBefore e => (EmptyString, Some e)
  | FailAfter e => (EmptyString, Some e)
  end.
Proof.
  destruct w as [st fs cs nx lg l wc].
  unfold client_Get, coming_fault, next_fault. simpl.
  destruct fs as [|[| |] fs]; simpl; try reflexivity;
    destruct (redis_get (lockKey l) st); reflexivity.
Qed.

Lemma client_Get_world w :
  w_store (client_Get (lockKey (w_locker w)) w).2 = w_store w /\
  w_log (client_Get (lockKey (w_locker w)) w).2 =
    EfCall (CallGet (lockKey (w_locker w))) :: w_log w /\
  w_next (client_Get (lockKey (w_locker w)) w).2 = w_next w /\
  w_watcher_cancel (client_Get (lockKey (w_locker w)) w).2 =
    w_watcher_cancel w.
Proof.
  destruct w as [st fs cs nx lg l wc].
  unfold client_Get, next_fault. simpl.
  destruct fs as [|[| |] fs]; simpl; try (repeat split; reflexivity);
    destruct (redis_get (lockKey l) st); repeat split; reflexivity.
Qed.

Lemma IsLocked_true_owns w :
  (IsLocked w).1 = true ->
  coming_fault w = NoFault /\ owns (w_locker w) (w_store w).
Proof.
  rewrite IsLocked_cases. unfold owns.
  destruct (coming_fault w); try discriminate.
  destruct (redis_get _ _) as [| |v]; try discriminate. simpl.
  intros ->%String.eqb_eq. split; reflexivity.
Qed.

(** C9: when the store read returns an error, [IsLocked] returns false;
    it returns true exactly when the read succeeds and the value read is
    this instance's token, and then the stored value is that token. *)
Theorem IsLocked_false_on_read_error (w : world) :
  ((client_Get (lockKey (w_locker w)) w).1.2 <> None ->
   (IsLocked w).1 = false) /\
  ((IsLocked w).1 = true <->
   (client_Get (lockKey (w_locker w)) w).1.2 = None /\
   (client_Get (lockKey (w_locker w)) w).1.1 = lockValue (w_locker w)) /\
  ((IsLocked w).1 = true -> owns (w_locker w) (w_store w)).
Proof.
  split; [|split].
  - rewrite client_Get_cases, IsLocked_cases.
    destruct (coming_fault w); try reflexivity.
    destruct (redis_get _ _); simpl; try reflexivity. congruence.
  - rewrite client_Get_cases, IsLocked_cases.
    destruct (coming_fault w); simpl.
    + destruct (redis_get _ _); simpl.
      * split; [discriminate | intros [? _]; discriminate].
      * split; [discriminate | intros [? _]; discriminate].
      * rewrite String.eqb_eq. split; [auto | intros [_ ?]; auto].
    + split; [discriminate | intros [? _]; discriminate].
    + split; [discriminate | intros [? _]; discriminate].
  - intros H. apply IsLocked_true_owns in H. apply H.
Qed.

Lemma IsLocked_false_on_read_error_witness :
  (IsLocked (sample_world store_own [FailBefore (ErrNew "i/o timeout")])).1
  = false.
Proof.
  apply (IsLocked_false_on_read_error
           (sample_world store_own [FailBefore (ErrNew "i/o timeout")])).
  vm_compute. discriminate.
Defined.

(** *** The renewal loop *)

Lemma renew_tick_world w :
  (renew_tick w).2 =
    (client_Eval renew_script [lockKey (w_locker w)]
       [LStr (lockValue (w_locker w));
        LInt (duration_whole_seconds (lockTTL (w_locker w)))] w).2 \/
  exists k, l_cancel (w_locker w) = Some k /\ (renew_tick w).1 = Exited /\
    (renew_tick w).2 =
      call_cancel k
        (client_Eval renew_script [lockKey (w_locker w)]
           [LStr (lockValue (w_locker w));
            LInt (duration_whole_seconds (lockTTL (w_locker w)))] w).2.
Proof.
  unfold renew_tick.
  destruct (client_Eval _ _ _ w) as [[res err] w1]. cbn [fst snd].
  destruct err as [e|]; [|destruct res as [|n|]; [|destruct (n =? 0)%Z|]];
    try (left; reflexivity);
    (destruct (l_cancel (w_locker w)) as [k|];
     [right; exists k; repeat split; reflexivity | left; reflexivity]).
Qed.

Lemma renew_tick_store w :
  w_store (renew_tick w).2 =
  match coming_fault w with
  | FailBefore _ => w_store w
  | _ =>
      if bool_decide (redis_get (lockKey (w_locker w)) (w_store w)
                      = LStr (lockValue (w_locker w)))
      then (redis_expire (lockKey (w_locker w))
              (duration_whole_seconds (lockTTL (w_locker w))) (w_store w)).2
      else w_store w
  end.
Proof.
  assert (H : w_store (renew_tick w).2 =
              w_store (client_Eval renew_script [lockKey (w_locker w)]
                [LStr (lockValue (w_locker w));
                 LInt (duration_whole_seconds (lockTTL (w_locker w)))] w).2).
  { destruct (renew_tick_world w) as [-> | (k & _ & _ & ->)]; reflexivity. }
  rewrite H, client_Eval_store, lua_run_renew.
  destruct (coming_fault w); try reflexivity; case_bool_decide; reflexivity.
Qed.

Lemma renew_tick_fails w k :
  l_cancel (w_locker w) = Some k ->
  ~ owns (w_locker w) (w_store w) \/ coming_fault w <> NoFault ->
  renew_tick w =
    (Exited,
     call_cancel k
       (client_Eval renew_script [lockKey (w_locker w)]
          [LStr (lockValue (w_locker w));
           LInt (duration_whole_seconds (lockTTL (w_locker w)))] w).2).
Proof.
  intros Hk Hfail. unfold renew_tick, owns in *.
  pose proof (client_Eval_err renew_script [lockKey (w_locker w)]
                [LStr (lockValue (w_locker w));
                 LInt (duration_whole_seconds (lockTTL (w_locker w)))] w)
    as Herr.
  pose proof (client_Eval_result renew_script [lockKey (w_locker w)]
                [LStr (lockValue (w_locker w));
                 LInt (duration_whole_seconds (lockTTL (w_locker w)))] w)
    as Hres.
  destruct (client_Eval _ _ _ w) as [[res err] w1]. cbn [fst snd] in *.
  rewrite Hk.
  destruct (coming_fault w) as [|e|e]; subst err; try reflexivity.
  destruct Hfail as [Hno | Hf]; [|congruence].
  rewrite Hres by reflexivity. rewrite lua_run_renew.
  case_bool_decide; [contradiction | reflexivity].
Qed.

Lemma renew_tick_succeeds w :
  owns (w_locker w) (w_store w) ->
  coming_fault w = NoFault ->
  (renew_tick w).1 = Looping.
Proof.
  intros Hown Hf. unfold renew_tick, owns in *.
  pose proof (client_Eval_err renew_script [lockKey (w_locker w)]
                [LStr (lockValue (w_locker w));
                 LInt (duration_whole_seconds (lockTTL (w_locker w)))] w)
    as Herr.
  pose proof (client_Eval_result renew_script [lockKey (w_locker w)]
                [LStr (lockValue (w_locker w));
                 LInt (duration_whole_seconds (lockTTL (w_locker w)))] w Hf)
    as Hres.
  destruct (client_Eval _ _ _ w) as [[res err] w1]. cbn [fst snd] in *.
  rewrite Hf in Herr. subst err. rewrite Hres, lua_run_renew.
  rewrite bool_decide_eq_true_2 by assumption.
  unfold redis_expire. apply redis_get_LStr in Hown as (r & -> & _).
  destruct (_ <=? 0)%Z; reflexivity.
Qed.

Lemma renew_loop_app tk now before after w w1 tk1 now1 :
  renew_loop tk now before w = Some (Looping, w1, tk1, now1) ->
  renew_loop tk now (before ++ after) w = renew_loop tk1 now1 after w1.
Proof.
  revert tk now w.
  induction before as [|[t arm] before IH]; intros tk now w; simpl.
  - intros [= -> -> ->]. reflexivity.
  - destruct (t <? now)%Z; [discriminate|].
    destruct (match arm with
              | ArmCtxDone => Some (ticker_at t tk)
              | ArmTicker => ticker_receive (ticker_at t tk)
              end) as [tk2|]; [|discriminate].
    destruct (renew_step arm w) as [[s w']|]; [destruct s|];
      try discriminate.
    apply IH.
Qed.

Lemma renew_step_locker arm w s w1 :
  renew_step arm w = Some (s, w1) -> w_locker w1 = w_locker w.
Proof.
  destruct arm; simpl.
  - destruct (l_ctx (w_locker w)); [|discriminate].
    destruct (ctx_cancelled w c); [|discriminate]. intros [= _ <-].
    reflexivity.
  - intros [= H].
    replace w1 with (renew_tick w).2 by (rewrite H; reflexivity).
    destruct (renew_tick_world w) as [-> | (k & _ & _ & ->)];
      [|unfold call_cancel, log_effect; simpl];
      apply client_Eval_locker.
Qed.

Lemma renew_step_done_exits w s w1 :
  renew_step ArmCtxDone w = Some (s, w1) -> s = Exited.
Proof.
  simpl. destruct (l_ctx (w_locker w)); [|discriminate].
  destruct (ctx_cancelled w c); [|discriminate]. intros [= <- _].
  reflexivity.
Qed.

(** *** The ticker *)

Lemma ticker_at_inv start p c tk now t :
  (0 < p)%Z -> ticker_inv start p c tk now -> (now <= t)%Z ->
  ticker_inv start p c (ticker_at t tk) t.
Proof.
  intros Hp (Hper & Hnext & Hbuf) Hle. unfold ticker_at, ticker_inv.
  destruct (tk_next tk <=? t)%Z eqn:Hdue.
  - apply Z.leb_le in Hdue. cbn [tk_period tk_next tk_buffered].
    rewrite Hper. split; [reflexivity|].
    assert (Hq : (0 <= (t - tk_next tk) / p)%Z)
      by (apply Z.div_pos; lia).
    split.
    + destruct (tk_buffered tk); nia.
    + intros _. destruct (tk_buffered tk) eqn:Hb.
      * specialize (Hbuf eq_refl). lia.
      * lia.
  - split; [exact Hper|]. split; [exact Hnext|].
    intros Hb. specialize (Hbuf Hb). lia.
Qed.

Lemma ticker_receive_inv start p c tk tk2 t :
  ticker_inv start p c tk t -> ticker_receive tk = Some tk2 ->
  (start + (c + 1) * p <= t)%Z /\ ticker_inv start p (c + 1) tk2 t.
Proof.
  intros (Hper & Hnext & Hbuf). unfold ticker_receive, ticker_inv.
  destruct (tk_buffered tk) eqn:Hb; [|discriminate].
  intros [= <-]. cbn [tk_period tk_next tk_buffered].
  split; [apply Hbuf; reflexivity|].
  split; [exact Hper|]. split; [lia|]. discriminate.
Qed.

Lemma tick_times_app s1 s2 :
  tick_times (s1 ++ s2) = tick_times s1 ++ tick_times s2.
Proof.
  induction s1 as [|[t arm] s1 IH]; [reflexivity|].
  destruct arm; simpl; rewrite IH; reflexivity.
Qed.

(** No tick is received before its time: the tick of rank [i] after [c]
    earlier ones comes no sooner than [start + (c + i + 1) p]. *)
Lemma renew_loop_spacing start p sched :
  (0 < p)%Z ->
  forall c tk now w w1 tk1 now1,
    ticker_inv start p c tk now ->
    renew_loop tk now sched w = Some (Looping, w1, tk1, now1) ->
    (forall (i : nat) (ti : Z),
        tick_times sched !! i = Some ti ->
        (start + (c + Z.of_nat i + 1) * p <= ti)%Z) /\
    ticker_inv start p (c + Z.of_nat (length (tick_times sched))) tk1 now1.
Proof.
  intros Hp. induction sched as [|[t arm] sched IH];
    intros c tk now w w1 tk1 now1 Hinv; simpl.
  - intros [= <- <- <-]. split.
    + intros i ti H. destruct i; discriminate H.
    + rewrite Z.add_0_r. exact Hinv.
  - destruct (t <? now)%Z eqn:Hback; [discriminate|].
    apply Z.ltb_ge in Hback.
    pose proof (ticker_at_inv start p c tk now t Hp Hinv Hback) as Hinv1.
    destruct arm.
    + destruct (renew_step ArmCtxDone w) as [[s w']|] eqn:Hstep;
        [|discriminate].
      rewrite (renew_step_done_exits _ _ _ Hstep). discriminate.
    + destruct (ticker_receive (ticker_at t tk)) as [tk2|] eqn:Hrecv;
        [|discriminate].
      destruct (ticker_receive_inv _ _ _ _ _ _ Hinv1 Hrecv) as [Hti Hinv2].
      cbn [renew_step].
      destruct (renew_tick w) as [s w']. destruct s; try discriminate.
      intros Hloop.
      destruct (IH _ _ _ _ _ _ _ Hinv2 Hloop) as [Hrest Hend].
      split.
      * intros i ti H. destruct i as [|i].
        { injection H as <-. simpl. lia. }
        { specialize (Hrest i ti H). lia. }
      * cbn [length]. rewrite Nat2Z.inj_succ.
        replace (c + Z.succ (Z.of_nat (length (tick_times sched))))%Z
          with (c + 1 + Z.of_nat (length (tick_times sched)))%Z by lia.
        exact Hend.
Qed.

(** Every tick can be received the moment it fires. *)
Lemma renew_loop_prompt p n :
  (0 < p)%Z ->
  forall now w,
    is_Some (renew_loop (mkTicker p (now + p) false) now
                        (prompt_ticks now p n) w).
Proof.
  intros Hp. induction n as [|n IH]; intros now w; simpl; [eauto|].
  replace (now + p <? now)%Z with false by (symmetry; apply Z.ltb_ge; lia).
  unfold ticker_at. cbn [tk_next tk_period tk_buffered].
  rewrite Z.leb_refl, Z.sub_diag, Z.div_0_l by lia.
  unfold ticker_receive. cbn [tk_buffered tk_period tk_next].
  destruct (renew_tick w) as [s w']. destruct s; eauto.
  replace (now + p + p * (1 + 0))%Z with (now + p + p)%Z by lia.
  apply IH.
Qed.

Lemma tick_times_prompt p n :
  forall now (i : nat),
    (i < n)%nat ->
    tick_times (prompt_ticks now p n) !! i
    = Some (now + (Z.of_nat i + 1) * p)%Z.
Proof.
  induction n as [|n IH]; intros now i Hi; [lia|].
  destruct i as [|i]; simpl.
  - f_equal. lia.
  - rewrite IH by lia. f_equal. lia.
Qed.

Lemma TryLock_renew_period c w :
  renew_period (TryLock c w).2 = renew_period w.
Proof.
  destruct w as [st fs cs nx lg l wc].
  unfold TryLock, client_SetNX, renew_period, next_fault, redis_setnx.
  simpl. destruct fs as [|[| |] fs]; simpl;
    destruct (st !! lockKey l); reflexivity.
Qed.


End LockerTheorems.

(** * Properties of the worker with middlewares *)

Section MiddlewareTheorems.
Import MW.
Implicit Types (wk : Worker) (w : world) (ms : list Middleware).

Lemma run_before_locked c ms i w :
  run_before c ms i true w = (None, true, [], w).
Proof. destruct ms; reflexivity. Qed.

Lemma run_before_app c pre rest i w tr1 w1 :
  run_before c pre i false w = (None, false, tr1, w1) ->
  run_before c (pre ++ rest) i false w =
  let '(p, l, tr, w2) := run_before c rest (i + length pre) false w1 in
  (p, l, tr1 ++ tr, w2).
Proof.
  revert i w tr1. induction pre as [|m pre IH]; intros i w tr1; simpl.
  - intros [= <- ->]. rewrite Nat.add_0_r.
    destruct (run_before c rest i false w1) as [[[p l] tr] w2]. reflexivity.
  - replace (i + S (length pre))%nat with (S i + length pre)%nat by lia.
    destruct (m c w) as [[[e|]|v] w']; simpl.
    + destruct (errors_Is e ErrLocked).
      * rewrite run_before_locked. intros [=].
      * destruct (run_before c pre (S i) false w') as [[[p l] tr] w2] eqn:Hp.
        intros [= -> -> <- ->]. rewrite (IH _ _ _ Hp).
        destruct (run_before c rest _ false w1) as [[[p l] tr'] w2].
        reflexivity.
    + destruct (run_before c pre (S i) false w') as [[[p l] tr] w2] eqn:Hp.
      intros [= -> -> <- ->]. rewrite (IH _ _ _ Hp).
      destruct (run_before c rest _ false w1) as [[[p l] tr'] w2].
      reflexivity.
    + intros [=].
Qed.

(** *** What the hooks of a tick do *)

Lemma hooks_run_app tr1 tr2 :
  hooks_run (tr1 ++ tr2) = hooks_run tr1 ++ hooks_run tr2.
Proof. apply List.filter_app. Qed.

Lemma apply_hooks_app c ms1 ms2 w :
  apply_hooks c (ms1 ++ ms2) w = apply_hooks c ms2 (apply_hooks c ms1 w).
Proof.
  revert w. induction ms1 as [|m ms1 IH]; intros w; [reflexivity|].
  simpl. apply IH.
Qed.

Lemma hooks_all_app ok c ms1 ms2 w :
  hooks_all ok c ms1 w -> hooks_all ok c ms2 (apply_hooks c ms1 w) ->
  hooks_all ok c (ms1 ++ ms2) w.
Proof.
  revert w. induction ms1 as [|m ms1 IH]; intros w; simpl; [tauto|].
  intros [Hm H1] H2. split; [exact Hm|]. apply IH; assumption.
Qed.

(** Before-middlewares that return without contention are all called, in
    order, each on the state left by the one before. *)
Lemma run_before_hooks c ms :
  forall i w,
    hooks_all calm c ms w ->
    exists tr,
      run_before c ms i false w = (None, false, tr, apply_hooks c ms w) /\
      hooks_run tr = map RanBefore (seq i (length ms)).
Proof.
  induction ms as [|m ms IH]; intros i w; simpl.
  - intros _. exists []. split; reflexivity.
  - intros [Hm Hrest]. destruct (IH (S i) _ Hrest) as (tr & Hrun & Hh).
    destruct (m c w) as [[[e|]|v] w1]; simpl in *.
    + rewrite Hm, Hrun.
      exists (RanBefore i :: LogError "Worker before middleware" e :: tr).
      split; [reflexivity|]. unfold hooks_run in *. simpl. rewrite Hh.
      reflexivity.
    + rewrite Hrun. exists (RanBefore i :: tr).
      split; [reflexivity|]. unfold hooks_run in *. simpl. rewrite Hh.
      reflexivity.
    + contradiction.
Qed.

(** After-middlewares that return are all called, in order, each on the
    state left by the one before. *)
Lemma run_after_hooks c ms :
  forall i w,
    hooks_all returned c ms w ->
    exists tr,
      run_after c ms i w = (None, tr, apply_hooks c ms w) /\
      hooks_run tr = map RanAfter (seq i (length ms)).
Proof.
  induction ms as [|m ms IH]; intros i w; simpl.
  - intros _. exists []. split; reflexivity.
  - intros [Hm Hrest]. destruct (IH (S i) _ Hrest) as (tr & Hrun & Hh).
    destruct (m c w) as [[[e|]|v] w1]; simpl in *.
    + rewrite Hrun.
      exists (RanAfter i :: LogError "Worker after middleware" e :: tr).
      split; [reflexivity|]. unfold hooks_run in *. simpl. rewrite Hh.
      reflexivity.
    + rewrite Hrun. exists (RanAfter i :: tr).
      split; [reflexivity|]. unfold hooks_run in *. simpl. rewrite Hh.
      reflexivity.
    + contradiction.
Qed.

(** A tick whose before-middlewares raise no contention and whose hooks
    all return: every before-middleware, the action, every
    after-middleware, each under [c] on the state the previous one left. *)
Lemma tick_body_hooks wk c w0 :
  hooks_all calm c (beforeMiddlewares wk) w0 ->
  hooks_all returned c (afterMiddlewares wk)
            (action wk c (apply_hooks c (beforeMiddlewares wk) w0)).2 ->
  exists tr,
    tick_body wk c w0 =
      ((action wk c (apply_hooks c (beforeMiddlewares wk) w0)).1, tr,
       apply_hooks c (afterMiddlewares wk)
         (action wk c (apply_hooks c (beforeMiddlewares wk) w0)).2) /\
    hooks_run tr =
      map RanBefore (seq 0 (length (beforeMiddlewares wk)))
      ++ RanAction :: map RanAfter (seq 0 (length (afterMiddlewares wk))).
Proof.
  intros Hb Ha. unfold tick_body.
  destruct (run_before_hooks c _ 0%nat _ Hb) as (tr1 & -> & Hh1).
  destruct (action wk c (apply_hooks c (beforeMiddlewares wk) w0))
    as [r w2]. simpl in *.
  destruct (run_after_hooks c _ 0%nat _ Ha) as (tr2 & -> & Hh2).
  exists (tr1 ++ RanAction :: tr2). split; [reflexivity|].
  rewrite hooks_run_app, Hh1. f_equal.
  unfold hooks_run in *. simpl. rewrite Hh2. reflexivity.
Qed.

Lemma run_before_agree c ms ms' :
  Forall2 (agree_under c) ms ms' ->
  forall i l w, run_before c ms i l w = run_before c ms' i l w.
Proof.
  induction 1 as [|m m' ms ms' Hm _ IH]; intros i l w; [reflexivity|].
  cbn [run_before]. destruct l; [reflexivity|].
  rewrite (Hm w). destruct (m' c w) as [[[e|]|v] w1]; [| |reflexivity].
  - destruct (errors_Is e ErrLocked); rewrite IH; reflexivity.
  - rewrite IH. reflexivity.
Qed.

Lemma run_after_agree c ms ms' :
  Forall2 (agree_under c) ms ms' ->
  forall i w, run_after c ms i w = run_after c ms' i w.
Proof.
  induction 1 as [|m m' ms ms' Hm _ IH]; intros i w; [reflexivity|].
  cbn [run_after]. rewrite (Hm w).
  destruct (m' c w) as [[[e|]|v] w1]; [| |reflexivity];
    rewrite IH; reflexivity.
Qed.

Lemma runAction_world wk w c cancel w0 r tr w1 :
  tick_context wk w = (c, cancel, w0) ->
  tick_body wk c w0 = (r, tr, w1) ->
  (runAction wk w).2 = finish_tick cancel w1.
Proof.
  intros Hctx Hbody. unfold runAction. rewrite Hctx, Hbody.
  destruct cancel; reflexivity.
Qed.

(** C2 (as amended): in a tick, when a before-middleware returns
    [ErrLocked] (alone or wrapped), the tick runs nothing after it: no
    later before-middleware, not the action, no after-middleware; the
    state of the tick is the one that middleware left.  When it returns
    another error, the error is logged and the later before-middlewares
    are still called; if none of them raises contention or panics, the
    action is called on the state they leave and, whatever its outcome,
    the after-middlewares are called after it in registration order, as
    long as none of them panics. *)
Theorem runAction_skip_on_ErrLocked
    (wk : Worker) (w w0 w2 : world) (c : context) (cancel : option nat)
    (pre post : list Middleware) (m : Middleware) (e : error) :
  tick_context wk w = (c, cancel, w0) ->
  beforeMiddlewares wk = pre ++ m :: post ->
  hooks_all calm c pre w0 ->
  m c (apply_hooks c pre w0) = (Return (Some e), w2) ->
  (errors_Is e ErrLocked = true ->
   exists tr,
     tick_body wk c w0 = (Return None, tr, w2) /\
     hooks_run tr = map RanBefore (seq 0 (S (length pre))) /\
     (runAction wk w).1.2 = tr /\
     (runAction wk w).2 = finish_tick cancel w2) /\
  (errors_Is e ErrLocked = false ->
   hooks_all calm c post w2 ->
   hooks_all returned c (afterMiddlewares wk)
             (action wk c (apply_hooks c post w2)).2 ->
   exists tr,
     tick_body wk c w0 =
       ((action wk c (apply_hooks c post w2)).1, tr,
        apply_hooks c (afterMiddlewares wk)
          (action wk c (apply_hooks c post w2)).2) /\
     In (LogError "Worker before middleware" e) tr /\
     hooks_run tr =
       map RanBefore (seq 0 (length (beforeMiddlewares wk)))
       ++ RanAction :: map RanAfter (seq 0 (length (afterMiddlewares wk)))
     /\
     (runAction wk w).2 =
       finish_tick cancel
         (apply_hooks c (afterMiddlewares wk)
            (action wk c (apply_hooks c post w2)).2)).
Proof.
  intros Hctx Hms Hpre Hm.
  destruct (run_before_hooks c pre 0%nat w0 Hpre) as (tr1 & Hrun1 & Hh1).
  split.
  - intros Hlocked.
    assert (Hbody : tick_body wk c w0 =
                    (Return None, tr1 ++ [RanBefore (length pre)], w2)).
    { unfold tick_body. rewrite Hms, (run_before_app _ _ _ _ _ _ _ Hrun1).
      simpl. rewrite Hm, Hlocked, run_before_locked. reflexivity. }
    exists (tr1 ++ [RanBefore (length pre)]).
    split; [exact Hbody|]. split; [|split].
    + rewrite hooks_run_app, Hh1, seq_S, map_app. reflexivity.
    + unfold runAction. rewrite Hctx, Hbody. reflexivity.
    + apply (runAction_world _ _ _ _ _ _ _ _ Hctx Hbody).
  - intros Hother Hpost Hafter.
    destruct (run_before_hooks c post (S (length pre)) w2 Hpost)
      as (tr3 & Hrun3 & Hh3).
    destruct (action wk c (apply_hooks c post w2)) as [r w4] eqn:Hact.
    simpl in Hafter |- *.
    destruct (run_after_hooks c _ 0%nat _ Hafter) as (tr4 & Hrun4 & Hh4).
    assert (Hbody :
              tick_body wk c w0 =
              (r,
               (tr1 ++ RanBefore (length pre)
                    :: LogError "Worker before middleware" e :: tr3)
               ++ RanAction :: tr4,
               apply_hooks c (afterMiddlewares wk) w4)).
    { unfold tick_body. rewrite Hms, (run_before_app _ _ _ _ _ _ _ Hrun1).
      simpl. rewrite Hm, Hother, Hrun3, Hact, Hrun4. reflexivity. }
    eexists. split; [exact Hbody|]. split; [|split].
    + apply in_or_app. left. apply in_or_app. right. right. left.
      reflexivity.
    + rewrite !hooks_run_app, Hh1, Hms, length_app. cbn [length].
      rewrite seq_app, map_app. cbn [seq map Nat.add].
      unfold hooks_run in *. cbn [List.filter is_hook].
      rewrite Hh3, Hh4. reflexivity.
    + apply (runAction_world _ _ _ _ _ _ _ _ Hctx Hbody).
Qed.

Lemma runAction_skip_on_ErrLocked_witness :
  (exists tr,
      tick_body marked_worker Background (sample_world store_foreign [])
      = (Return None, tr,
         (LockMiddleware Background (sample_world store_foreign [])).2) /\
      hooks_run tr = [RanBefore 0; RanBefore 1]) /\
  (exists tr,
      hooks_run tr = [RanBefore 0; RanBefore 1; RanAction; RanAfter 0] /\
      w_log (runAction marked_worker (sample_world ∅ [])).2
      = [EfCancel 88; EfCancel 77;
         EfGo GoRenewLock;
         EfCall (CallSetNX "worker:lock:job" "aa" (30 * Second))]
      /\ In (LogError "Worker before middleware" (ErrNew "boom")) tr).
Proof.
  split.
  - destruct (runAction_skip_on_ErrLocked marked_worker
                (sample_world store_foreign [])
                (sample_world store_foreign [])
                (LockMiddleware Background
                   (sample_world store_foreign [])).2
                Background None [mw_fail] [] LockMiddleware ErrLocked)
      as [H _]; try (vm_compute; tauto).
    destruct (H eq_refl) as (tr & Hbody & Hh & _).
    exists tr. split; [exact Hbody | exact Hh].
  - destruct (runAction_skip_on_ErrLocked marked_worker
                (sample_world ∅ []) (sample_world ∅ []) (sample_world ∅ [])
                Background None [] [LockMiddleware] mw_fail (ErrNew "boom"))
      as [_ H]; try (vm_compute; tauto).
    destruct H as (tr & _ & Hin & Hh & Hw);
      [reflexivity | vm_compute; tauto | vm_compute; tauto |].
    exists tr. split; [exact Hh|]. split; [|exact Hin].
    rewrite Hw. vm_compute. reflexivity.
Defined.

(** C2 (as stated) fails: a before-middleware returns an error other than
    [ErrLocked], the next one returns [ErrLocked], and neither the action
    nor the after-middleware runs in that tick. *)
Lemma other_error_then_ErrLocked_skips_action :
  beforeMiddlewares marked_worker = [mw_fail; LockMiddleware] /\
  mw_fail Background (sample_world store_foreign [])
  = (Return (Some (ErrNew "boom")), sample_world store_foreign []) /\
  errors_Is (ErrNew "boom") ErrLocked = false /\
  (runAction marked_worker (sample_world store_foreign [])).1.2
  = [RanBefore 0; LogError "Worker before middleware" (ErrNew "boom");
     RanBefore 1] /\
  w_log (runAction marked_worker (sample_world store_foreign [])).2
  = [EfCall (CallSetNX "worker:lock:job" "aa" (30 * Second))] /\
  w_log (action marked_worker Background (sample_world store_foreign [])).2
  = [EfCancel 77].
Proof.
  repeat split; vm_compute; reflexivity.
Qed.

(** *** The error handler *)

Lemma runAction_nil wk w : (runAction wk w).1.1 = None.
Proof.
  unfold runAction.
  destruct (tick_context wk w) as [[c cancel] w0].
  destruct (tick_body wk c w0) as [[r tr] w1]. reflexivity.
Qed.

Lemma run_and_handle_quiet wk count st :
  r_status st = Running ->
  r_status (run_and_handle (mw_runAction wk) (errorHandler wk) count st)
  = Running /\
  r_stopper (run_and_handle (mw_runAction wk) (errorHandler wk) count st)
  = r_stopper st /\
  r_handled (run_and_handle (mw_runAction wk) (errorHandler wk) count st)
  = r_handled st /\
  r_ext (run_and_handle (mw_runAction wk) (errorHandler wk) count st)
  = r_ext st.
Proof.
  intros Hrun. unfold run_and_handle, mw_runAction.
  pose proof (runAction_nil wk (r_world st)) as Hnil.
  destruct (runAction wk (r_world st)) as [[err tr] w1].
  simpl in Hnil. subst err. simpl. rewrite Hrun. auto.
Qed.

Lemma mw_step_quiet wk e st st1 :
  step wk e st = Some st1 ->
  r_handled st = [] /\ r_stopper st = 0%nat ->
  r_handled st1 = [] /\ r_stopper st1 = 0%nat.
Proof.
  unfold step. intros Hstep [Hh Hs]. destruct e as [| |a]; simpl in Hstep.
  - injection Hstep as <-. auto.
  - injection Hstep as <-. auto.
  - unfold loop_select in Hstep.
    destruct (r_status st) eqn:Hst; try discriminate.
    destruct a.
    + destruct (r_ext st); [|discriminate]. injection Hstep as <-. auto.
    + rewrite Hs in Hstep. discriminate.
    + destruct (r_timer st); [|discriminate]. injection Hstep as <-.
      match goal with
      | |- context [run_and_handle _ _ _ ?s] =>
          destruct (run_and_handle_quiet wk true s eq_refl)
            as (_ & -> & -> & _)
      end. auto.
Qed.

Lemma mw_exec_quiet wk evs st st1 :
  run_exec (mw_runAction wk) (errorHandler wk) evs st = Some st1 ->
  r_handled st = [] /\ r_stopper st = 0%nat ->
  r_handled st1 = [] /\ r_stopper st1 = 0%nat.
Proof.
  revert st. induction evs as [|e evs IH]; intros st; simpl.
  - intros [= <-]. auto.
  - destruct (run_step _ _ e st) as [st'|] eqn:Hstep; [|discriminate].
    intros Hexec Hinv. apply (IH _ Hexec).
    apply (mw_step_quiet wk e st st' Hstep Hinv).
Qed.

(** C1 (defect of the code): [runAction] of the worker with middlewares
    logs the error of the tick and returns nil, so over every run of
    [Run], whatever the action returned, no error has been handed to the
    error handler and the stop signal has not been raised. *)
Theorem Run_never_invokes_errorHandler
    (wk : Worker) (evs : list run_event) (w : world) (st : run_state) :
  MW.Run wk evs w = Some st ->
  (runAction wk w).1.1 = None /\
  r_handled st = [] /\ r_stopper st = 0%nat.
Proof.
  intros Hrun. split; [apply runAction_nil|].
  unfold MW.Run, Run in Hrun. apply (mw_exec_quiet _ _ _ _ Hrun).
  unfold Run_start.
  destruct (fromStart wk).
  - destruct (run_and_handle_quiet wk false (run_init w) eq_refl)
      as (Hst & Hs & Hh & _).
    rewrite Hst. destruct (duration wk <=? 0)%Z; simpl; rewrite Hs, Hh; auto.
  - simpl. destruct (duration wk <=? 0)%Z; auto.
Qed.

Lemma Run_never_invokes_errorHandler_witness :
  exists st,
    MW.Run failing_worker [EnvTimer; Select ArmTick] (sample_world ∅ [])
    = Some st /\
    r_trace st = [RanAction; LogError "Worker action failed" (ErrNew "boom")]
    /\ r_status st = Running /\ r_handled st = [] /\ r_stopper st = 0%nat.
Proof.
  eexists. split; [vm_compute; reflexivity|].
  split; [reflexivity|]. split; [reflexivity|].
  eapply (Run_never_invokes_errorHandler failing_worker
            [EnvTimer; Select ArmTick] (sample_world ∅ [])).
  vm_compute. reflexivity.
Defined.

(** *** The context of a tick *)

Lemma wrap64_small z :
  (min_int64 <= z <= max_int64)%Z -> wrap64 z = z.
Proof.
  unfold wrap64, min_int64, max_int64. intros H.
  rewrite Z.mod_small; lia.
Qed.

(** C7 (as amended): with a timeout configured, at most the largest
    [int64] less one second, the context of a tick is derived from
    [context.Background()] and its deadline is the timeout plus one
    second; with none configured the context has no deadline.  The hooks
    and the action of the tick are called under that context, and under
    no other: a tick is the same for hooks that do the same under it.
    It is not derived from the context the loop waits on, and after a
    tick the loop is still running with the same external-cancellation
    and stop signals. *)
Theorem tick_context_deadline (wk : Worker) (w : world) :
  ((0 < timeout wk)%Z -> (timeout wk <= max_int64 - Second)%Z ->
   ctx_deadline (tick_context wk w).1.1 = Some (timeout wk + Second)%Z) /\
  ((timeout wk <= 0)%Z -> ctx_deadline (tick_context wk w).1.1 = None) /\
  ctx_root (tick_context wk w).1.1 = Background /\
  (hooks_all calm (tick_context wk w).1.1 (beforeMiddlewares wk)
             (tick_context wk w).2 ->
   hooks_all returned (tick_context wk w).1.1 (afterMiddlewares wk)
             (action wk (tick_context wk w).1.1
                (apply_hooks (tick_context wk w).1.1 (beforeMiddlewares wk)
                   (tick_context wk w).2)).2 ->
   (runAction wk w).2 =
     finish_tick (tick_context wk w).1.2
       (apply_hooks (tick_context wk w).1.1 (afterMiddlewares wk)
          (action wk (tick_context wk w).1.1
             (apply_hooks (tick_context wk w).1.1 (beforeMiddlewares wk)
                (tick_context wk w).2)).2)) /\
  (forall wk' : Worker,
      timeout wk' = timeout wk -> amIMaster wk' = amIMaster wk ->
      Forall2 (agree_under (tick_context wk w).1.1)
              (beforeMiddlewares wk) (beforeMiddlewares wk') ->
      Forall2 (agree_under (tick_context wk w).1.1)
              (afterMiddlewares wk) (afterMiddlewares wk') ->
      (forall w1 : world,
          action wk (tick_context wk w).1.1 w1
          = action wk' (tick_context wk w).1.1 w1) ->
      runAction wk' w = runAction wk w) /\
  (forall st st1 : run_state,
      step wk (Select ArmTick) st = Some st1 ->
      r_status st1 = Running /\ r_ext st1 = r_ext st /\
      r_stopper st1 = r_stopper st).
Proof.
  split; [|split; [|split; [|split; [|split]]]].
  - unfold tick_context.
    intros Hpos Hmax. destruct (timeout wk >? 0)%Z eqn:Hgt; [|lia].
    unfold duration_add. rewrite wrap64_small.
    + destruct (amIMaster wk); reflexivity.
    + unfold min_int64, max_int64 in *. unfold Second in *. lia.
  - unfold tick_context.
    intros Hle. destruct (timeout wk >? 0)%Z eqn:Hgt; [lia|].
    destruct (amIMaster wk); reflexivity.
  - unfold tick_context.
    destruct (timeout wk >? 0)%Z; destruct (amIMaster wk); reflexivity.
  - destruct (tick_context wk w) as [[c cancel] w0] eqn:Hctx.
    cbn [fst snd]. intros Hb Ha.
    destruct (tick_body_hooks wk c w0 Hb Ha) as (tr & Hbody & _).
    apply (runAction_world _ _ _ _ _ _ _ _ Hctx Hbody).
  - intros wk' Ht Hm Hb Ha Hact.
    assert (Hctx : tick_context wk' w = tick_context wk w)
      by (unfold tick_context; rewrite Ht, Hm; reflexivity).
    unfold runAction. rewrite Hctx.
    destruct (tick_context wk w) as [[c cancel] w0]. cbn [fst snd] in *.
    unfold tick_body.
    rewrite (run_before_agree c _ _ Hb).
    destruct (run_before c (beforeMiddlewares wk') 0 false w0)
      as [[[p l] tr1] w1].
    destruct p as [v|]; [reflexivity|]. destruct l; [reflexivity|].
    rewrite Hact. destruct (action wk' c w1) as [r w2].
    rewrite (run_after_agree c _ _ Ha). reflexivity.
  - intros st st1 H.
    unfold step in H. simpl in H. unfold loop_select in H.
    destruct (r_status st); try discriminate.
    destruct (r_timer st); [|discriminate]. injection H as <-.
    match goal with
    | |- context [run_and_handle _ _ _ ?s] =>
        destruct (run_and_handle_quiet wk true s eq_refl)
          as (-> & -> & _ & ->)
    end. auto.
Qed.

Lemma tick_context_deadline_witness :
  ctx_deadline (tick_context timed_worker (sample_world ∅ [])).1.1
  = Some (6 * Second)%Z /\
  ctx_deadline (tick_context guarded_worker (sample_world ∅ [])).1.1 = None
  /\
  w_log (runAction reporting_worker (sample_world ∅ [])).2
  = [EfCancel 1; EfCancel 6].
Proof.
  split; [|split].
  - apply (tick_context_deadline timed_worker (sample_world ∅ []));
      vm_compute; [reflexivity | discriminate].
  - apply (tick_context_deadline guarded_worker (sample_world ∅ [])).
    vm_compute. discriminate.
  - destruct (tick_context_deadline reporting_worker
                (sample_world ∅ [])) as (_ & _ & _ & H & _).
    rewrite H; [vm_compute; reflexivity | exact I | exact I].
Defined.

(** C7 (as stated) fails: with a timeout of five seconds configured the
    deadline of the tick's context is six seconds. *)
Lemma tick_deadline_exceeds_timeout :
  timeout timed_worker = (5 * Second)%Z /\
  ctx_deadline (tick_context timed_worker (sample_world ∅ [])).1.1
  = Some (6 * Second)%Z /\
  ctx_deadline (tick_context timed_worker (sample_world ∅ [])).1.1
  <> Some (timeout timed_worker).
Proof.
  split; [reflexivity|]. split; [vm_compute; reflexivity|].
  vm_compute. discriminate.
Qed.

(** *** The watcher middleware *)

Lemma watcher_not_locked c w :
  (IsLocked w).1 = false ->
  CancelRunningWorker_Middleware c w
  = (Return (Some ErrLocked), (IsLocked w).2).
Proof.
  unfold CancelRunningWorker_Middleware.
  destruct (IsLocked w) as [b w1]. simpl. intros ->. reflexivity.
Qed.

Lemma IsLocked_world w :
  (IsLocked w).2 = (client_Get (lockKey (w_locker w)) w).2.
Proof.
  unfold IsLocked.
  destruct (client_Get (lockKey (w_locker w)) w) as [[v err] w1].
  destruct err; reflexivity.
Qed.

(** C10: the watcher middleware returns [ErrLocked] whenever [IsLocked]
    is false -- in particular whenever the stored value is not this
    instance's token -- and starts nothing; a tick guarded by it is then
    skipped (no action, no after-middleware) and ends with a nil error.
    Only when [IsLocked] is true does it return nil, keep the cancel
    function and start the goroutine [monitorLock]. *)
Theorem watcher_returns_ErrLocked_unless_owner (c : context) (w : world) :
  (~ owns (w_locker w) (w_store w) -> (IsLocked w).1 = false) /\
  ((IsLocked w).1 = false ->
   CancelRunningWorker_Middleware c w
   = (Return (Some ErrLocked), (IsLocked w).2) /\
   w_log (CancelRunningWorker_Middleware c w).2
   = EfCall (CallGet (lockKey (w_locker w))) :: w_log w /\
   forall (wk : Worker) (rest : list Middleware),
     beforeMiddlewares wk = CancelRunningWorker_Middleware :: rest ->
     tick_body wk c w = (Return None, [RanBefore 0], (IsLocked w).2) /\
     TryContext (tick_body wk c w).1.1 = None) /\
  ((IsLocked w).1 = true ->
   (CancelRunningWorker_Middleware c w).1 = Return None /\
   w_log (CancelRunningWorker_Middleware c w).2
   = EfGo (GoMonitorLock (WithCancel c (w_next w)))
     :: EfCall (CallGet (lockKey (w_locker w))) :: w_log w /\
   w_watcher_cancel (CancelRunningWorker_Middleware c w).2
   = Some (w_next w)).
Proof.
  split; [|split].
  - intros Hno. destruct (IsLocked w).1 eqn:Hl; [|reflexivity].
    apply IsLocked_true_owns in Hl. tauto.
  - intros Hl. rewrite (watcher_not_locked c w Hl).
    split; [reflexivity|]. split.
    + simpl. rewrite IsLocked_world. apply client_Get_world.
    + intros wk rest Hms.
      assert (Hbody : tick_body wk c w
                      = (Return None, [RanBefore 0], (IsLocked w).2)).
      { unfold tick_body. rewrite Hms. simpl.
        rewrite (watcher_not_locked c w Hl). simpl.
        rewrite run_before_locked. reflexivity. }
      rewrite Hbody. split; reflexivity.
  - intros Hl. unfold CancelRunningWorker_Middleware.
    pose proof (IsLocked_world w) as Hw.
    destruct (IsLocked w) as [b w1]. simpl in Hl, Hw. subst b w1. simpl.
    destruct (client_Get_world w) as (_ & Hlog & Hnext & _).
    unfold go, log_effect, set_watcher_cancel. simpl.
    rewrite Hlog, Hnext. repeat split; reflexivity.
Qed.

Lemma watcher_returns_ErrLocked_unless_owner_witness :
  CancelRunningWorker_Middleware Background (sample_world store_foreign [])
  = (Return (Some ErrLocked),
     (IsLocked (sample_world store_foreign [])).2) /\
  (CancelRunningWorker_Middleware Background
     (sample_world store_own [])).1 = Return None.
Proof.
  split.
  - apply (watcher_returns_ErrLocked_unless_owner Background
             (sample_world store_foreign [])).
    apply (watcher_returns_ErrLocked_unless_owner Background
             (sample_world store_foreign [])).
    intros H. vm_compute in H. discriminate H.
  - apply (watcher_returns_ErrLocked_unless_owner Background
             (sample_world store_own [])).
    vm_compute. reflexivity.
Defined.
End MiddlewareTheorems.

(** * Properties of the worker with a [stop] callback *)

Section ContextWorkerTheorems.

(** C3 (defect of the code): [try] turns a panic into a non-nil error and
    passes a non-nil error of the action through, but its deferred
    function tests [err == nil] instead of the recovered value, so an
    action that returns nil yields the fabricated error [<nil>]: [try]
    never returns nil.  With a handler that declines to continue, a
    successful first tick therefore stops the worker. *)
Theorem try_fabricates_error_on_success :
  CW.try (Return None) = Some (ErrNew "<nil>") /\
  (forall v : string, CW.try (Panic v) = Some (ErrNew v)) /\
  (forall e : error, CW.try (Return (Some e)) = Some e) /\
  (forall r : outcome, is_Some (CW.try r)) /\
  (exists st,
      CW.Run cw_quiet_worker [EnvTimer; Select ArmTick; Select ArmStopper]
             (sample_world ∅ []) = Some st /\
      r_handled st = [ErrNew "<nil>"] /\ r_status st = Returned).
Proof.
  split; [reflexivity|]. split; [reflexivity|]. split; [reflexivity|].
  split.
  - intros [[e|]|v]; simpl; eauto.
  - eexists. split; [vm_compute; reflexivity|]. split; reflexivity.
Qed.

(** [runAction] bounds the context by the tick interval; the timeout set
    with [Timeout] is not read. *)
Lemma cw_tick_context_ignores_timeout (wk : CW.Worker) (t : Z) (w : world) :
  CW.tick_context (CW.Timeout t wk) w = CW.tick_context wk w.
Proof. reflexivity. Qed.
End ContextWorkerTheorems.

(** * Properties of the scheduler loop *)

Section RunLoopTheorems.
Variable runAction : world -> option error * nat * list hook_event * world.
Variable errorHandler : option (error -> bool).
Variable fromStart : bool.
Variable duration : Z.

Lemma send_stopper_pending st : pending st -> pending (send_stopper st).
Proof.
  unfold pending, send_stopper. intros [Hd Hs].
  destruct (r_status st) eqn:Hst; try (split; [assumption|congruence]).
  destruct (r_stopper st <? 1)%nat; simpl; split; auto; discriminate.
Qed.

Lemma send_stopper_n_pending n st :
  pending st -> pending (send_stopper_n n st).
Proof.
  revert st. induction n as [|n IH]; intros st H; simpl; [exact H|].
  apply IH, send_stopper_pending, H.
Qed.

Lemma run_and_handle_pending count st :
  pending st -> pending (run_and_handle runAction errorHandler count st).
Proof.
  intros Hp. unfold run_and_handle.
  destruct (runAction (r_world st)) as [[[err stops] tr] w1].
  match goal with
  | |- context [send_stopper_n stops ?s] =>
      assert (H1 : pending (send_stopper_n stops s))
        by (apply send_stopper_n_pending; exact Hp);
      destruct (send_stopper_n stops s) as [w2 sp dn ex tm tk hd tr2 stt]
  end.
  simpl. destruct stt; try exact H1.
  destruct err as [e|]; [|exact H1].
  destruct errorHandler as [h|]; [|exact H1].
  destruct (h e).
  - split; [apply H1 | discriminate].
  - apply send_stopper_pending. split; [apply H1 | discriminate].
Qed.

Lemma Run_start_pending w :
  pending (Run_start runAction errorHandler fromStart duration w).
Proof.
  unfold Run_start.
  assert (H : pending (if fromStart
                       then run_and_handle runAction errorHandler false
                                           (run_init w)
                       else run_init w)).
  { destruct fromStart; [apply run_and_handle_pending|];
      (split; [reflexivity | discriminate]). }
  destruct (if fromStart then _ else _)
    as [w2 sp dn ex tm tk hd tr2 stt].
  simpl. destruct stt; try exact H.
  destruct (duration <=? 0)%Z; [|exact H].
  split; [apply H | discriminate].
Qed.

Lemma pending_done_once st : pending st -> done_once st.
Proof.
  unfold pending, done_once. intros [-> Hs].
  destruct (r_status st); congruence.
Qed.

Lemma run_step_done_once e st st1 :
  run_step runAction errorHandler e st = Some st1 ->
  done_once st -> done_once st1.
Proof.
  unfold done_once. destruct e as [| |a]; simpl.
  - intros [= <-]. auto.
  - intros [= <-]. auto.
  - unfold loop_select. destruct (r_status st) eqn:Hst; try discriminate.
    intros Hsel Hd. destruct a.
    + destruct (r_ext st); [|discriminate]. injection Hsel as <-.
      simpl. rewrite Hd. reflexivity.
    + destruct (r_stopper st); [discriminate|]. injection Hsel as <-.
      simpl. rewrite Hd. reflexivity.
    + destruct (r_timer st); [|discriminate]. injection Hsel as <-.
      apply pending_done_once, run_and_handle_pending.
      split; [exact Hd | discriminate].
Qed.

Lemma run_exec_done_once evs st st1 :
  run_exec runAction errorHandler evs st = Some st1 ->
  done_once st -> done_once st1.
Proof.
  revert st. induction evs as [|e evs IH]; intros st; simpl.
  - intros [= <-]. auto.
  - destruct (run_step runAction errorHandler e st) as [st'|] eqn:Hstep;
      [|discriminate].
    intros Hexec Hd. apply (IH _ Hexec).
    apply (run_step_done_once e st st' Hstep Hd).
Qed.

Lemma run_exec_returned evs st st1 :
  run_exec runAction errorHandler evs st = Some st1 ->
  r_status st = Returned ->
  r_status st1 = Returned /\ r_done st1 = r_done st /\
  r_ticks st1 = r_ticks st /\ r_trace st1 = r_trace st.
Proof.
  revert st. induction evs as [|e evs IH]; intros st; simpl.
  - intros [= <-]. auto.
  - destruct (run_step runAction errorHandler e st) as [st'|] eqn:Hstep;
      [|discriminate].
    intros Hexec Hret.
    assert (H : r_status st' = Returned /\ r_done st' = r_done st /\
                r_ticks st' = r_ticks st /\ r_trace st' = r_trace st).
    { destruct e as [| |a]; simpl in Hstep.
      - injection Hstep as <-. auto.
      - injection Hstep as <-. auto.
      - unfold loop_select in Hstep. rewrite Hret in Hstep. discriminate. }
    destruct H as (H1 & H2 & H3 & H4).
    destruct (IH _ Hexec H1) as (K1 & K2 & K3 & K4).
    repeat split; congruence.
Qed.

(** C8 (as amended): along every run of [Run], [done] has been sent
    exactly once if the loop has returned and not at all otherwise.  The
    arms of the external cancellation and of the stop signal are ready as
    soon as their signal is there; once the [select] takes one of them the
    loop sends [done] once and returns without running a tick, and from
    then on no event makes it run a tick or send [done] again. *)
Theorem Run_returns_once_stop_is_received
    (evs : list run_event) (w : world) (st : run_state) :
  Run runAction errorHandler fromStart duration evs w = Some st ->
  done_once st /\
  (r_status st = Running -> r_ext st = true ->
   is_Some (run_step runAction errorHandler (Select ArmDone) st)) /\
  (r_status st = Running -> (0 < r_stopper st)%nat ->
   is_Some (run_step runAction errorHandler (Select ArmStopper) st)) /\
  (forall (a : select_arm) (st1 : run_state),
      a = ArmDone \/ a = ArmStopper ->
      run_step runAction errorHandler (Select a) st = Some st1 ->
      r_status st1 = Returned /\ r_done st1 = 1%nat /\
      r_ticks st1 = r_ticks st /\ r_trace st1 = r_trace st /\
      forall (evs2 : list run_event) (st2 : run_state),
        run_exec runAction errorHandler evs2 st1 = Some st2 ->
        r_status st2 = Returned /\ r_done st2 = 1%nat /\
        r_ticks st2 = r_ticks st /\ r_trace st2 = r_trace st).
Proof.
  intros Hrun. unfold Run in Hrun.
  assert (Hd : done_once st).
  { apply (run_exec_done_once _ _ _ Hrun), pending_done_once,
      Run_start_pending. }
  split; [exact Hd|]. split; [|split].
  - intros Hs He. simpl. unfold loop_select. rewrite Hs, He. eauto.
  - intros Hs Hp. simpl. unfold loop_select. rewrite Hs.
    destruct (r_stopper st); [lia | eauto].
  - intros a st1 Ha Hstep. simpl in Hstep. unfold loop_select in Hstep.
    unfold done_once in Hd.
    destruct (r_status st) eqn:Hs; try discriminate.
    assert (H1 : r_status st1 = Returned /\ r_done st1 = 1%nat /\
                 r_ticks st1 = r_ticks st /\ r_trace st1 = r_trace st).
    { destruct Ha as [-> | ->].
      - destruct (r_ext st); [|discriminate]. injection Hstep as <-.
        simpl. rewrite Hd. auto.
      - destruct (r_stopper st); [discriminate|]. injection Hstep as <-.
        simpl. rewrite Hd. auto. }
    destruct H1 as (K1 & K2 & K3 & K4). repeat split; try assumption;
      destruct (run_exec_returned _ _ _ H K1) as (L1 & L2 & L3 & L4);
      congruence.
Qed.
End RunLoopTheorems.

Lemma Run_returns_once_stop_is_received_witness :
  exists st st1,
    CW.Run cw_failing_worker [EnvTimer; Select ArmTick] (sample_world ∅ [])
    = Some st /\
    CW.step cw_failing_worker (Select ArmStopper) st = Some st1 /\
    r_status st1 = Returned /\ r_done st1 = 1%nat /\ r_ticks st1 = 1%nat.
Proof.
  eexists. eexists. split; [vm_compute; reflexivity|].
  split; [vm_compute; reflexivity|].
  destruct (Run_returns_once_stop_is_received
              (CW.runAction cw_failing_worker)
              (CW.errorHandler cw_failing_worker)
              (CW.fromStart cw_failing_worker)
              (CW.duration cw_failing_worker)
              [EnvTimer; Select ArmTick] (sample_world ∅ []) _
              ltac:(vm_compute; reflexivity))
    as (_ & _ & _ & H).
  destruct (H ArmStopper _ (or_intror eq_refl) ltac:(vm_compute; reflexivity))
    as (H1 & H2 & H3 & _).
  split; [exact H1|]. split; [exact H2|]. exact H3.
Defined.

(** C8 (as stated) fails.  The external cancellation has fired while a tick
    is buffered in the ticker: the [select] may take the tick, and the
    action runs once more.  The internal stop signal has been raised by the
    error handler while a tick is buffered: the [select] may take the tick,
    the action runs again, and the second send on the full [stopper] blocks
    the loop for ever, so that [done] is never sent. *)
Lemma tick_runs_after_stop_signal :
  (exists st st1,
      MW.Run timed_worker [EnvTimer; EnvCancel] (sample_world ∅ []) = Some st /\
      r_ext st = true /\
      MW.step timed_worker (Select ArmTick) st = Some st1 /\
      r_ticks st1 = S (r_ticks st) /\
      r_trace st1 = r_trace st ++ [RanAction]) /\
  (exists st st1,
      CW.Run cw_failing_worker [EnvTimer; Select ArmTick; EnvTimer]
             (sample_world ∅ []) = Some st /\
      r_stopper st = 1%nat /\
      CW.step cw_failing_worker (Select ArmTick) st = Some st1 /\
      r_ticks st1 = S (r_ticks st) /\
      r_status st1 = Blocked /\ r_done st1 = 0%nat /\
      forall e, CW.step cw_failing_worker (Select e) st1 = None).
Proof.
  split.
  - eexists. eexists. split; [vm_compute; reflexivity|].
    split; [reflexivity|]. split; [vm_compute; reflexivity|].
    split; reflexivity.
  - eexists. eexists. split; [vm_compute; reflexivity|].
    split; [reflexivity|]. split; [vm_compute; reflexivity|].
    split; [reflexivity|]. split; [reflexivity|]. split; [reflexivity|].
    intros []; reflexivity.
Qed.

(** * Further properties of the lock *)

Section LockerExtras.
Implicit Types (w : world) (st : gmap string record).

Lemma hex_decode_encode_byte (b : Byte.byte) :
  hex_decode_byte (hex_digit (N.div (Byte.to_N b) 16))
                  (hex_digit (N.modulo (Byte.to_N b) 16)) = Some b.
Proof. destruct b; reflexivity. Qed.

Lemma hex_decode_encode (bs : list Byte.byte) :
  hex_DecodeString (hex_EncodeToString bs) = Some bs.
Proof.
  induction bs as [|b bs IH]; [reflexivity|].
  cbn [hex_EncodeToString hex_DecodeString].
  rewrite hex_decode_encode_byte, IH. reflexivity.
Qed.

Lemma hex_encode_length (bs : list Byte.byte) :
  String.length (hex_EncodeToString bs) = (2 * length bs)%nat.
Proof.
  induction bs as [|b bs IH]; [reflexivity|].
  cbn [hex_EncodeToString String.length length]. rewrite IH. lia.
Qed.

(** X1: the token made by [generateLockValue] always has 32 characters,
    whatever [rand.Read] delivered, and two fillings of the 16 bytes that
    differ give tokens that differ. *)
Theorem generateLockValue_length_and_injective :
  (forall entropy : list Byte.byte,
      String.length (generateLockValue entropy) = 32%nat) /\
  (forall e1 e2 : list Byte.byte,
      length e1 = 16%nat -> length e2 = 16%nat ->
      generateLockValue e1 = generateLockValue e2 -> e1 = e2).
Proof.
  split.
  - intros e. unfold generateLockValue.
    rewrite hex_encode_length, length_take, length_app, length_replicate. lia.
  - intros e1 e2 H1 H2. unfold generateLockValue.
    rewrite (take_app_length' e1 _ 16 (eq_sym H1)),
      (take_app_length' e2 _ 16 (eq_sym H2)).
    intros Heq.
    assert (H : Some e1 = Some e2)
      by (rewrite <- (hex_decode_encode e1), <- (hex_decode_encode e2), Heq;
          reflexivity).
    congruence.
Qed.

Lemma generateLockValue_length_and_injective_witness :
  String.length (generateLockValue []) = 32%nat /\
  replicate 16 Byte.x2a = replicate 16 Byte.x2a.
Proof.
  split.
  - apply generateLockValue_length_and_injective.
  - apply generateLockValue_length_and_injective; reflexivity.
Defined.

Lemma TryLock_store c w :
  w_store (TryLock c w).2 =
  match coming_fault w with
  | FailBefore _ => w_store w
  | _ =>
      (redis_setnx (lockKey (w_locker w)) (lockValue (w_locker w))
                   (lockTTL (w_locker w)) (w_store w)).2
  end.
Proof.
  destruct w as [st fs cs nx lg l wc].
  unfold TryLock, client_SetNX, coming_fault, next_fault, redis_setnx.
  simpl. destruct fs as [|[| |] fs]; simpl;
    destruct (st !! lockKey l); reflexivity.
Qed.

Lemma redis_setnx_frame key value ttl st k :
  k <> key -> (redis_setnx key value ttl st).2 !! k = st !! k.
Proof.
  intros Hne. unfold redis_setnx. destruct (st !! key); simpl;
    [reflexivity|]. apply lookup_insert_ne. congruence.
Qed.

Lemma redis_expire_frame key secs st k :
  k <> key -> (redis_expire key secs st).2 !! k = st !! k.
Proof.
  intros Hne. unfold redis_expire. destruct (st !! key); simpl;
    [|reflexivity].
  destruct (secs <=? 0)%Z; simpl.
  - apply lookup_delete_ne. congruence.
  - apply lookup_insert_ne. congruence.
Qed.

Lemma locker_store_frame c w k :
  k <> lockKey (w_locker w) ->
  w_store (TryLock c w).2 !! k = w_store w !! k /\
  w_store (Unlock w).2 !! k = w_store w !! k /\
  w_store (renew_tick w).2 !! k = w_store w !! k.
Proof.
  intros Hne. split; [|split].
  - rewrite TryLock_store. destruct (coming_fault w); try reflexivity;
      apply redis_setnx_frame; assumption.
  - rewrite Unlock_store. destruct (coming_fault w); try reflexivity;
      case_bool_decide; try reflexivity; apply lookup_delete_ne; congruence.
  - rewrite renew_tick_store. destruct (coming_fault w); try reflexivity;
      case_bool_decide; try reflexivity; apply redis_expire_frame; assumption.
Qed.

(** X2: no operation of the lock writes a record other than the one under
    its own key: [TryLock], [Unlock] and a renewal tick leave every other
    key of the store as it was, and [IsLocked] changes nothing at all. *)
Theorem locker_ops_touch_only_own_key (c : context) (w : world) (k : string) :
  k <> lockKey (w_locker w) ->
  w_store (TryLock c w).2 !! k = w_store w !! k /\
  w_store (Unlock w).2 !! k = w_store w !! k /\
  w_store (renew_tick w).2 !! k = w_store w !! k /\
  w_store (IsLocked w).2 = w_store w.
Proof.
  intros Hne. destruct (locker_store_frame c w k Hne) as (H1 & H2 & H3).
  repeat split; try assumption.
  rewrite IsLocked_world. apply client_Get_world.
Qed.

Lemma locker_ops_touch_only_own_key_witness :
  w_store (Unlock (sample_world store_own [])).2 !! "worker:lock:mail"
  = store_own !! "worker:lock:mail".
Proof.
  apply (locker_ops_touch_only_own_key Background (sample_world store_own [])
           "worker:lock:mail").
  vm_compute. discriminate.
Defined.



(** *** Acquire *)

Lemma TryLock_success c w :
  (TryLock c w).1 = None ->
  coming_fault w = NoFault /\ w_store w !! lockKey (w_locker w) = None.
Proof.
  destruct w as [st fs cs nx lg l wc].
  unfold TryLock, client_SetNX, coming_fault, next_fault, redis_setnx.
  simpl. destruct fs as [|[| |] fs]; simpl;
    destruct (st !! lockKey l); simpl; intros H;
    try discriminate H; split; reflexivity.
Qed.

Lemma TryLock_failure c w e :
  coming_fault w = FailBefore e \/ coming_fault w = FailAfter e ->
  (TryLock c w).1 = Some (ErrWrap "failed to acquire lock" e) /\
  w_locker (TryLock c w).2 = w_locker w /\
  w_log (TryLock c w).2 =
    EfCall (CallSetNX (lockKey (w_locker w)) (lockValue (w_locker w))
                      (lockTTL (w_locker w))) :: w_log w.
Proof.
  destruct w as [st fs cs nx lg l wc].
  unfold TryLock, client_SetNX, coming_fault, next_fault, redis_setnx.
  simpl. destruct fs as [|[| |] fs]; simpl;
    intros [H | H]; try discriminate H; injection H as ->;
    destruct (st !! lockKey l); simpl; repeat split; reflexivity.
Qed.

Lemma errors_Is_wrap msg e :
  errors_Is (ErrWrap msg e) ErrLocked = errors_Is e ErrLocked.
Proof.
  cbn [errors_Is]. rewrite bool_decide_eq_false_2 by discriminate.
  reflexivity.
Qed.

(** X4: when the store call of [TryLock] fails, the error comes back
    wrapped as "failed to acquire lock"; it counts as lock contention for
    [errors.Is] only if the store error itself does.  Nothing is started
    and the locker keeps its context and cancel function; if the call
    never reached the server the store is unchanged. *)
Theorem TryLock_store_error_is_wrapped (c : context) (w : world) (e : error) :
  coming_fault w = FailBefore e \/ coming_fault w = FailAfter e ->
  (TryLock c w).1 = Some (ErrWrap "failed to acquire lock" e) /\
  errors_Is (ErrWrap "failed to acquire lock" e) ErrLocked
  = errors_Is e ErrLocked /\
  w_locker (TryLock c w).2 = w_locker w /\
  w_log (TryLock c w).2 =
    EfCall (CallSetNX (lockKey (w_locker w)) (lockValue (w_locker w))
                      (lockTTL (w_locker w))) :: w_log w /\
  (coming_fault w = FailBefore e -> w_store (TryLock c w).2 = w_store w).
Proof.
  intros Hf. destruct (TryLock_failure c w e Hf) as (H1 & H2 & H3).
  split; [exact H1|]. split; [apply errors_Is_wrap|].
  split; [exact H2|]. split; [exact H3|].
  intros Hb. rewrite TryLock_store, Hb. reflexivity.
Qed.

Lemma TryLock_store_error_is_wrapped_witness :
  (TryLock Background
     (sample_world ∅ [FailBefore (ErrNew "i/o timeout")])).1
  = Some (ErrWrap "failed to acquire lock" (ErrNew "i/o timeout")).
Proof.
  apply (TryLock_store_error_is_wrapped Background
           (sample_world ∅ [FailBefore (ErrNew "i/o timeout")])
           (ErrNew "i/o timeout")).
  left. reflexivity.
Defined.

(** X5: after a successful [TryLock] the record of the holder is in the
    store, and in every later state in which that record is still there
    a further [TryLock] on the same key whose store call succeeds -- by
    another instance or by the same one -- returns [ErrLocked] and leaves
    the record of the holder in place. *)
Theorem TryLock_excludes_later_acquire
    (c c2 : context) (w w' : world) (l2 : Locker) :
  (TryLock c w).1 = None ->
  lockKey l2 = lockKey (w_locker w) ->
  w_store w' !! lockKey (w_locker w)
  = w_store (TryLock c w).2 !! lockKey (w_locker w) ->
  coming_fault w' = NoFault ->
  w_store (TryLock c w).2 !! lockKey (w_locker w)
  = Some (mkRecord (lockValue (w_locker w)) (lockTTL (w_locker w))) /\
  (TryLock c2 (set_locker l2 w')).1 = Some ErrLocked /\
  w_store (TryLock c2 (set_locker l2 w')).2 !! lockKey (w_locker w)
  = Some (mkRecord (lockValue (w_locker w)) (lockTTL (w_locker w))).
Proof.
  intros Hok Hkey Hsame Hf2.
  destruct (TryLock_success c w Hok) as (Hf & Hnone).
  assert (Hst : w_store (TryLock c w).2 !! lockKey (w_locker w)
                = Some (mkRecord (lockValue (w_locker w))
                                 (lockTTL (w_locker w)))).
  { rewrite (TryLock_NoFault c w Hf), Hnone. cbn [snd w_store].
    apply lookup_insert_eq. }
  split; [exact Hst|].
  rewrite Hst in Hsame.
  assert (Hf3 : coming_fault (set_locker l2 w') = NoFault) by exact Hf2.
  rewrite (TryLock_NoFault c2 _ Hf3).
  destruct w' as [st1 fs1 cs1 nx1 lg1 l1 wc1].
  cbn [set_locker w_store w_locker] in *.
  rewrite Hkey, Hsame.
  split; [reflexivity|].
  unfold next_fault. cbn [log_effect w_faults w_store].
  destruct fs1; cbn [snd w_store]; exact Hsame.
Qed.

Lemma TryLock_excludes_later_acquire_witness :
  (TryLock Background
     (set_locker sample_locker
        (TryLock Background (sample_world ∅ [])).2)).1 = Some ErrLocked /\
  (TryLock Background
     (set_locker sample_locker
        (renew_tick (TryLock Background (sample_world ∅ [])).2).2)).1
  = Some ErrLocked.
Proof.
  split.
  - apply (TryLock_excludes_later_acquire Background Background
             (sample_world ∅ []) (TryLock Background (sample_world ∅ [])).2
             sample_locker);
      vm_compute; reflexivity.
  - apply (TryLock_excludes_later_acquire Background Background
             (sample_world ∅ [])
             (renew_tick (TryLock Background (sample_world ∅ [])).2).2
             sample_locker);
      vm_compute; reflexivity.
Defined.

(** *** Release *)

Lemma Unlock_eq w :
  Unlock w =
  ((client_Eval unlock_script [lockKey (w_locker w)]
      [LStr (lockValue (w_locker w))]
      (match l_cancel (w_locker w) with
       | Some k => call_cancel k w
       | None => w
       end)).1.2,
   (client_Eval unlock_script [lockKey (w_locker w)]
      [LStr (lockValue (w_locker w))]
      (match l_cancel (w_locker w) with
       | Some k => call_cancel k w
       | None => w
       end)).2).
Proof.
  unfold Unlock. destruct (client_Eval _ _ _ _) as [[v err] w2]. reflexivity.
Qed.

Lemma Unlock_locker w : w_locker (Unlock w).2 = w_locker w.
Proof.
  rewrite Unlock_eq. cbn [snd]. rewrite client_Eval_locker.
  destruct (l_cancel (w_locker w)); reflexivity.
Qed.

Lemma Unlock_cancelled w k :
  l_cancel (w_locker w) = Some k -> k ∈ w_cancelled (Unlock w).2.
Proof.
  intros Hk. rewrite Unlock_eq. cbn [snd].
  rewrite client_Eval_cancelled, Hk. unfold call_cancel, log_effect. simpl.
  apply elem_of_union_l, elem_of_singleton. reflexivity.
Qed.

Lemma Unlock_releases w :
  (forall e, coming_fault w <> FailBefore e) ->
  ~ owns (w_locker w) (w_store (Unlock w).2).
Proof.
  intros Hf. unfold owns. rewrite Unlock_store.
  destruct (coming_fault w) as [|e|e]; [| exfalso; apply (Hf e); reflexivity |];
    (case_bool_decide as Hown; [|exact Hown]);
    unfold redis_get; rewrite lookup_delete_eq; discriminate.
Qed.

(** X6: acquire then release is a round trip.  After a successful
    [TryLock], an [Unlock] whose call reaches the server puts the store
    back exactly as it was before the acquire, and the context of the
    renewal loop is cancelled. *)
Theorem TryLock_Unlock_roundtrip (c : context) (w : world) :
  (TryLock c w).1 = None ->
  (forall e, coming_fault (TryLock c w).2 <> FailBefore e) ->
  w_store (Unlock (TryLock c w).2).2 = w_store w /\
  w_next w ∈ w_cancelled (Unlock (TryLock c w).2).2 /\
  ctx_cancelled (Unlock (TryLock c w).2).2 (WithCancel c (w_next w)) = true.
Proof.
  intros Hok Hf2.
  destruct (TryLock_success c w Hok) as (Hf & Hnone).
  pose proof (TryLock_NoFault c w Hf) as Hw. rewrite Hnone in Hw.
  assert (Hc : w_next w ∈ w_cancelled (Unlock (TryLock c w).2).2).
  { apply Unlock_cancelled. rewrite Hw. reflexivity. }
  split; [|split; [exact Hc|]].
  - rewrite Unlock_store.
    assert (Hst : w_store (TryLock c w).2 =
                  <[lockKey (w_locker w) :=
                      mkRecord (lockValue (w_locker w))
                               (lockTTL (w_locker w))]> (w_store w))
      by (rewrite Hw; reflexivity).
    assert (Hl : lockKey (w_locker (TryLock c w).2) = lockKey (w_locker w)
                 /\ lockValue (w_locker (TryLock c w).2)
                    = lockValue (w_locker w))
      by (rewrite Hw; split; reflexivity).
    destruct Hl as [Hl1 Hl2]. rewrite Hl1, Hl2, Hst.
    assert (Hget : redis_get (lockKey (w_locker w))
                     (<[lockKey (w_locker w) :=
                          mkRecord (lockValue (w_locker w))
                                   (lockTTL (w_locker w))]> (w_store w))
                   = LStr (lockValue (w_locker w)))
      by (unfold redis_get; rewrite lookup_insert_eq; reflexivity).
    rewrite bool_decide_eq_true_2 by exact Hget.
    rewrite delete_insert_eq, (delete_id _ _ Hnone).
    destruct (coming_fault (TryLock c w).2) as [|e|e]; try reflexivity.
    exfalso. apply (Hf2 e). reflexivity.
  - unfold ctx_cancelled. cbn [ctx_cancels existsb].
    rewrite bool_decide_eq_true_2 by exact Hc. reflexivity.
Qed.

Lemma TryLock_Unlock_roundtrip_witness :
  w_store (Unlock (TryLock Background (sample_world ∅ [])).2).2 = ∅.
Proof.
  apply (TryLock_Unlock_roundtrip Background (sample_world ∅ [])).
  - vm_compute. reflexivity.
  - intros e H. vm_compute in H. discriminate H.
Defined.

(** X7: [Unlock] returns nil whenever the store call succeeds -- also when
    it deleted nothing because the key is absent or held by another
    instance -- and returns a store error as it is, unwrapped.  It never
    changes the locker itself, and it calls the cancel function kept by
    the last successful [TryLock]. *)
Theorem Unlock_reports_only_store_errors (w : world) :
  (Unlock w).1 =
    match coming_fault w with
    | NoFault => None
    | FailBefore e => Some e
    | FailAfter e => Some e
    end /\
  w_locker (Unlock w).2 = w_locker w /\
  (forall k, l_cancel (w_locker w) = Some k -> k ∈ w_cancelled (Unlock w).2).
Proof.
  split; [|split].
  - rewrite Unlock_eq. cbn [fst]. rewrite client_Eval_err.
    destruct (l_cancel (w_locker w)); reflexivity.
  - apply Unlock_locker.
  - apply Unlock_cancelled.
Qed.

Lemma Unlock_reports_only_store_errors_witness :
  0%nat ∈ w_cancelled (Unlock (sample_world store_foreign [])).2.
Proof.
  apply (Unlock_reports_only_store_errors (sample_world store_foreign [])).
  reflexivity.
Defined.

(** *** Liveness probe *)

(** X8: right after a successful [TryLock], [IsLocked] (its read
    succeeding) is true; after an [Unlock] whose call reached the server
    it is false, whatever the fate of the read. *)
Theorem IsLocked_follows_acquire_and_release (c : context) (w : world) :
  ((TryLock c w).1 = None ->
   coming_fault (TryLock c w).2 = NoFault ->
   (IsLocked (TryLock c w).2).1 = true) /\
  ((forall e, coming_fault w <> FailBefore e) ->
   (IsLocked (Unlock w).2).1 = false).
Proof.
  split.
  - intros Hok Hf2.
    destruct (TryLock_success c w Hok) as (Hf & Hnone).
    pose proof (TryLock_NoFault c w Hf) as Hw. rewrite Hnone in Hw.
    rewrite IsLocked_cases, Hf2. rewrite Hw. cbn [snd w_store w_locker lockKey
      lockValue]. unfold redis_get. rewrite lookup_insert_eq. cbn [rec_value fst].
    apply String.eqb_refl.
  - intros Hf. destruct (IsLocked (Unlock w).2).1 eqn:Hl; [|reflexivity].
    apply IsLocked_true_owns in Hl as [_ Hown].
    rewrite Unlock_locker in Hown.
    exfalso. exact (Unlock_releases w Hf Hown).
Qed.

Lemma IsLocked_follows_acquire_and_release_witness :
  (IsLocked (TryLock Background (sample_world ∅ [])).2).1 = true /\
  (IsLocked (Unlock (sample_world store_own [])).2).1 = false.
Proof.
  split.
  - apply (IsLocked_follows_acquire_and_release Background
             (sample_world ∅ [])); vm_compute; reflexivity.
  - apply (IsLocked_follows_acquire_and_release Background
             (sample_world store_own [])).
    intros e H. vm_compute in H. discriminate H.
Defined.

(** *** Renewal *)

Lemma whole_seconds_quot ttl :
  (0 <= ttl < 2 ^ 24 * Second)%Z ->
  duration_whole_seconds ttl = Z.quot ttl Second.
Proof.
  intros H. rewrite (whole_seconds_small _ H).
  symmetry. apply Z.quot_div_nonneg; unfold Second; lia.
Qed.

Lemma whole_seconds_pos ttl :
  (Second <= ttl < 2 ^ 24 * Second)%Z ->
  (0 < duration_whole_seconds ttl)%Z.
Proof.
  intros H. rewrite whole_seconds_small by (unfold Second in *; lia).
  unfold Second in *. apply Z.div_str_pos. lia.
Qed.

(** X9: a renewal tick of the owner whose call succeeds keeps the stored
    value and, for a TTL of at least one second and less than 2^24
    seconds, sets the expiry to the TTL rounded down to whole seconds
    (not to the TTL itself); the loop goes on.  The bound is where
    [int(lockTTL.Seconds())], computed in float64, is the integer
    quotient. *)
Theorem renew_tick_resets_expiry_to_whole_seconds (w : world) :
  owns (w_locker w) (w_store w) ->
  coming_fault w = NoFault ->
  (Second <= lockTTL (w_locker w) < 2 ^ 24 * Second)%Z ->
  (renew_tick w).1 = Looping /\
  w_store (renew_tick w).2 =
    <[lockKey (w_locker w) :=
        mkRecord (lockValue (w_locker w))
                 (Z.quot (lockTTL (w_locker w)) Second * Second)]>
      (w_store w) /\
  owns (w_locker w) (w_store (renew_tick w).2).
Proof.
  intros Hown Hf Httl.
  assert (Hst : w_store (renew_tick w).2 =
                <[lockKey (w_locker w) :=
                    mkRecord (lockValue (w_locker w))
                      (Z.quot (lockTTL (w_locker w)) Second * Second)]>
                  (w_store w)).
  { rewrite renew_tick_store, Hf.
    rewrite bool_decide_eq_true_2 by exact Hown.
    unfold redis_expire. pose proof (whole_seconds_pos _ Httl) as Hpos.
    apply redis_get_LStr in Hown as (r & -> & <-).
    destruct (duration_whole_seconds (lockTTL (w_locker w)) <=? 0)%Z eqn:Hle;
      [lia|].
    rewrite whole_seconds_quot by (unfold Second in *; lia).
    reflexivity. }
  split; [apply renew_tick_succeeds; assumption|].
  split; [exact Hst|].
  unfold owns, redis_get. rewrite Hst, lookup_insert_eq. reflexivity.
Qed.

Lemma renew_tick_resets_expiry_to_whole_seconds_witness :
  w_store
    (renew_tick
       (mkWorld {[ "worker:lock:job" := mkRecord "aa" 7 ]} [] ∅ 1 []
          (mkLocker "worker:lock:job" "aa" (2500 * 1000000) (833 * 1000000)
                    (Some (WithCancel Background 0)) (Some 0%nat)) None)).2
  = {[ "worker:lock:job" := mkRecord "aa" (2 * Second) ]}.
Proof.
  etransitivity.
  - apply (renew_tick_resets_expiry_to_whole_seconds
             (mkWorld {[ "worker:lock:job" := mkRecord "aa" 7 ]} [] ∅ 1 []
                (mkLocker "worker:lock:job" "aa" (2500 * 1000000)
                          (833 * 1000000)
                          (Some (WithCancel Background 0)) (Some 0%nat))
                None)).
    + vm_compute. reflexivity.
    + reflexivity.
    + vm_compute. split; [discriminate | reflexivity].
  - vm_compute. reflexivity.
Defined.

(** X10: with a TTL under one second the whole seconds are zero, and
    [EXPIRE key 0] removes the key: the first successful renewal tick of
    the owner deletes its own lock record, and still reports that the
    loop goes on. *)
Theorem renew_tick_subsecond_ttl_deletes_record (w : world) :
  owns (w_locker w) (w_store w) ->
  coming_fault w = NoFault ->
  (0 <= lockTTL (w_locker w) < Second)%Z ->
  (renew_tick w).1 = Looping /\
  w_store (renew_tick w).2 = delete (lockKey (w_locker w)) (w_store w) /\
  ~ owns (w_locker w) (w_store (renew_tick w).2).
Proof.
  intros Hown Hf Httl.
  assert (Hst : w_store (renew_tick w).2 =
                delete (lockKey (w_locker w)) (w_store w)).
  { rewrite renew_tick_store, Hf.
    rewrite bool_decide_eq_true_2 by exact Hown.
    unfold redis_expire.
    rewrite whole_seconds_small by (unfold Second in *; lia).
    rewrite Z.div_small by exact Httl.
    apply redis_get_LStr in Hown as (r & -> & _). reflexivity. }
  split; [apply renew_tick_succeeds; assumption|].
  split; [exact Hst|].
  unfold owns, redis_get. rewrite Hst, lookup_delete_eq. discriminate.
Qed.

Lemma renew_tick_subsecond_ttl_deletes_record_witness :
  w_store
    (renew_tick
       (mkWorld store_own [] ∅ 1 []
          (mkLocker "worker:lock:job" "aa" (500 * 1000000) (166 * 1000000)
                    (Some (WithCancel Background 0)) (Some 0%nat)) None)).2
  = delete "worker:lock:job" store_own.
Proof.
  apply (renew_tick_subsecond_ttl_deletes_record
           (mkWorld store_own [] ∅ 1 []
              (mkLocker "worker:lock:job" "aa" (500 * 1000000)
                        (166 * 1000000)
                        (Some (WithCancel Background 0)) (Some 0%nat)) None)).
  - vm_compute. reflexivity.
  - reflexivity.
  - vm_compute. split; [discriminate | reflexivity].
Defined.

(** X11: release ends the renewal loop.  After an [Unlock] whose call
    reached the server, the next iteration of [renewLock] returns
    whichever arm the [select] takes: the context is done, and a tick
    finds that the stored value is no longer the token. *)
Theorem renewLock_ends_after_Unlock
    (w : world) (parent : context) (k : nat) (arm : poll_arm) :
  l_ctx (w_locker w) = Some (WithCancel parent k) ->
  l_cancel (w_locker w) = Some k ->
  (forall e, coming_fault w <> FailBefore e) ->
  exists w2, renew_step arm (Unlock w).2 = Some (Exited, w2).
Proof.
  intros Hctx Hk Hf. destruct arm; simpl.
  - rewrite Unlock_locker, Hctx. unfold ctx_cancelled.
    cbn [ctx_cancels existsb].
    rewrite bool_decide_eq_true_2 by (apply Unlock_cancelled; exact Hk).
    eauto.
  - eexists. f_equal. apply (renew_tick_fails _ k).
    + rewrite Unlock_locker. exact Hk.
    + left. rewrite Unlock_locker. apply Unlock_releases. exact Hf.
Qed.

Lemma renewLock_ends_after_Unlock_witness :
  exists w2,
    renew_step ArmTicker (Unlock (sample_world store_own [])).2
    = Some (Exited, w2).
Proof.
  apply (renewLock_ends_after_Unlock (sample_world store_own [])
           Background 0%nat ArmTicker).
  - reflexivity.
  - reflexivity.
  - intros e H. vm_compute in H. discriminate H.
Defined.

(** *** The monitor *)

Lemma monitor_loop_app c before after w w1 :
  monitorLock c before w = Some (Looping, w1) ->
  monitorLock c (before ++ after) w = monitorLock c after w1.
Proof.
  revert w. induction before as [|arm before IH]; intros w; simpl.
  - intros [= ->]. reflexivity.
  - destruct (monitor_step c arm w) as [[s w']|]; [destruct s|];
      try discriminate.
    apply IH.
Qed.

(** X12: [monitorLock] keeps polling while [IsLocked] is true; on the
    first tick where it is false the loop calls the cancel function kept
    by the middleware, if there is one, and returns, and no later choice
    of the [select] makes it read the store again. *)
Theorem monitorLock_stops_on_lock_loss
    (c : context) (w w1 : world) (before after : list poll_arm) :
  monitorLock c before w = Some (Looping, w1) ->
  (IsLocked w1).1 = false ->
  (forall w0, (IsLocked w0).1 = true ->
              monitor_tick w0 = (Looping, (IsLocked w0).2)) /\
  exists w2,
    monitorLock c (before ++ ArmTicker :: after) w = Some (Exited, w2) /\
    w_store w2 = w_store w1 /\
    w_log w2 =
      match w_watcher_cancel w1 with
      | Some k => [EfCancel k]
      | None => []
      end ++ EfCall (CallGet (lockKey (w_locker w1))) :: w_log w1 /\
    (forall k, w_watcher_cancel w1 = Some k -> k ∈ w_cancelled w2).
Proof.
  intros Hbefore Hl. split.
  - intros w0 H0. unfold monitor_tick.
    destruct (IsLocked w0) as [b w']. simpl in H0. subst b. reflexivity.
  - rewrite (monitor_loop_app _ _ _ _ _ Hbefore). simpl.
    unfold monitor_tick.
    pose proof (IsLocked_world w1) as Hw.
    destruct (client_Get_world w1) as (Hst & Hlog & _ & Hwc).
    destruct (IsLocked w1) as [b w']. simpl in Hl, Hw. subst b w'.
    simpl. rewrite Hwc.
    destruct (w_watcher_cancel w1) as [k|]; eexists;
      (split; [reflexivity|]); simpl; rewrite Hst, Hlog;
      (split; [reflexivity|]); (split; [reflexivity|]).
    + intros k' [= <-]. apply elem_of_union_l, elem_of_singleton.
      reflexivity.
    + intros k' [=].
Qed.

Lemma monitorLock_stops_on_lock_loss_witness :
  exists w2,
    monitorLock Background ([ArmTicker] ++ ArmTicker :: [ArmTicker])
      (mkWorld store_own [NoFault; FailBefore (ErrNew "i/o timeout")] ∅ 2 []
               sample_locker (Some 1%nat))
    = Some (Exited, w2) /\ 1%nat ∈ w_cancelled w2.
Proof.
  destruct (monitorLock_stops_on_lock_loss Background
              (mkWorld store_own [NoFault; FailBefore (ErrNew "i/o timeout")]
                       ∅ 2 [] sample_locker (Some 1%nat))
              (IsLocked
                 (mkWorld store_own
                          [NoFault; FailBefore (ErrNew "i/o timeout")]
                          ∅ 2 [] sample_locker (Some 1%nat))).2
              [ArmTicker] [ArmTicker])
    as (_ & w2 & Hrun & _ & _ & Hc).
  - vm_compute. reflexivity.
  - vm_compute. reflexivity.
  - exists w2. split; [exact Hrun|]. apply Hc. vm_compute. reflexivity.
Defined.
End LockerExtras.

(** * Further properties of the worker with middlewares *)

Section MiddlewareExtras.
Import MW.
Implicit Types (wk : Worker) (w : world) (ms : list Middleware).

(** X13: a failure of the store is not lock contention.  When the only
    before-middleware is [LockMiddleware] and its store call fails with an
    error that is not [ErrLocked], the error is logged and the action is
    called all the same, on the state the failed call left and followed
    by the after-middlewares, although [TryLock] reported no lock: no
    renewal loop was started and the locker was not bound.  If the call
    never reached the server the store is unchanged; if only the reply
    was lost the server has applied the [SET NX], so the record is there
    whenever the key was free. *)
Theorem runAction_runs_unguarded_when_lock_store_fails
    (wk : Worker) (w w0 : world) (c : context) (cancel : option nat)
    (e : error) :
  tick_context wk w = (c, cancel, w0) ->
  beforeMiddlewares wk = [LockMiddleware] ->
  coming_fault w0 = FailBefore e \/ coming_fault w0 = FailAfter e ->
  errors_Is e ErrLocked = false ->
  (exists tail,
      (runAction wk w).1.2 =
        RanBefore 0
        :: LogError "Worker before middleware"
                    (ErrWrap "failed to acquire lock" e)
        :: RanAction :: tail) /\
  (hooks_all returned c (afterMiddlewares wk)
             (action wk c (LockMiddleware c w0).2).2 ->
   (runAction wk w).2 =
     finish_tick cancel
       (apply_hooks c (afterMiddlewares wk)
          (action wk c (LockMiddleware c w0).2).2)) /\
  w_locker (LockMiddleware c w0).2 = w_locker w0 /\
  w_log (LockMiddleware c w0).2 =
    EfCall (CallSetNX (lockKey (w_locker w0)) (lockValue (w_locker w0))
                      (lockTTL (w_locker w0))) :: w_log w0 /\
  (coming_fault w0 = FailBefore e ->
   w_store (LockMiddleware c w0).2 = w_store w0) /\
  (coming_fault w0 = FailAfter e ->
   w_store (LockMiddleware c w0).2 =
     (redis_setnx (lockKey (w_locker w0)) (lockValue (w_locker w0))
                  (lockTTL (w_locker w0)) (w_store w0)).2 /\
   (w_store w0 !! lockKey (w_locker w0) = None ->
    owns (w_locker w0) (w_store (LockMiddleware c w0).2))).
Proof.
  intros Hctx Hms Hf He.
  destruct (TryLock_failure c w0 e Hf) as (Herr & Hl & Hlog).
  assert (Hmw : LockMiddleware c w0 =
                (Return (Some (ErrWrap "failed to acquire lock" e)),
                 (TryLock c w0).2)).
  { unfold LockMiddleware. destruct (TryLock c w0) as [err w1].
    simpl in Herr. subst err. reflexivity. }
  split; [|split; [|split; [|split; [|split]]]].
  - unfold runAction. rewrite Hctx. unfold tick_body. rewrite Hms.
    cbn [run_before]. rewrite Hmw, errors_Is_wrap, He.
    destruct (action wk c (TryLock c w0).2) as [r w2].
    destruct (run_after c (afterMiddlewares wk) 0 w2) as [[p2 tr2] w3].
    destruct p2 as [v|]; [|destruct (TryContext r)];
      destruct cancel; simpl; eauto.
  - intros Ha.
    assert (Hb : hooks_all calm c (beforeMiddlewares wk) w0).
    { rewrite Hms. cbn [hooks_all]. rewrite Hmw. cbn [fst calm].
      rewrite errors_Is_wrap. auto. }
    assert (Ha' : hooks_all returned c (afterMiddlewares wk)
                    (action wk c
                       (apply_hooks c (beforeMiddlewares wk) w0)).2)
      by (rewrite Hms; exact Ha).
    destruct (tick_body_hooks wk c w0 Hb Ha') as (tr & Hbody & _).
    rewrite (runAction_world _ _ _ _ _ _ _ _ Hctx Hbody), Hms.
    reflexivity.
  - rewrite Hmw. exact Hl.
  - rewrite Hmw. exact Hlog.
  - intros Hfb. rewrite Hmw. cbn [snd]. rewrite TryLock_store, Hfb.
    reflexivity.
  - intros Hfa.
    assert (Hst : w_store (LockMiddleware c w0).2 =
                  (redis_setnx (lockKey (w_locker w0))
                     (lockValue (w_locker w0))
                     (lockTTL (w_locker w0)) (w_store w0)).2).
    { rewrite Hmw. cbn [snd]. rewrite TryLock_store, Hfa. reflexivity. }
    split; [exact Hst|].
    intros Hfree. rewrite Hst. unfold owns, redis_setnx, redis_get.
    rewrite Hfree. cbn [snd]. rewrite lookup_insert_eq. reflexivity.
Qed.

Lemma runAction_runs_unguarded_when_lock_store_fails_witness :
  (exists tail,
      (runAction lock_worker
         (sample_world ∅ [FailBefore (ErrNew "i/o timeout")])).1.2 =
        RanBefore 0
        :: LogError "Worker before middleware"
                    (ErrWrap "failed to acquire lock" (ErrNew "i/o timeout"))
        :: RanAction :: tail) /\
  owns sample_locker
       (w_store
          (LockMiddleware Background
             (sample_world ∅ [FailAfter (ErrNew "i/o timeout")])).2).
Proof.
  split.
  - apply (runAction_runs_unguarded_when_lock_store_fails lock_worker
             (sample_world ∅ [FailBefore (ErrNew "i/o timeout")])
             (sample_world ∅ [FailBefore (ErrNew "i/o timeout")])
             Background None (ErrNew "i/o timeout")).
    + reflexivity.
    + reflexivity.
    + left. reflexivity.
    + reflexivity.
  - apply (runAction_runs_unguarded_when_lock_store_fails lock_worker
             (sample_world ∅ [FailAfter (ErrNew "i/o timeout")])
             (sample_world ∅ [FailAfter (ErrNew "i/o timeout")])
             Background None (ErrNew "i/o timeout")).
    + reflexivity.
    + reflexivity.
    + right. reflexivity.
    + reflexivity.
    + reflexivity.
    + reflexivity.
Defined.

(** X14: with a timeout configured, [runAction] ends by calling the cancel
    function of the tick's context, so that context and every context
    derived from it during the tick -- the one [TryLock] binds the renewal
    loop to, the one the watcher hands to its monitor -- are done when the
    tick ends.  With no timeout the tick's context can never be
    cancelled. *)
Theorem runAction_cancels_tick_context (wk : Worker) (w : world) :
  ((0 < timeout wk)%Z ->
   (tick_context wk w).1.2 = Some (w_next w) /\
   w_next w ∈ w_cancelled (runAction wk w).2 /\
   ctx_cancelled (runAction wk w).2 (tick_context wk w).1.1 = true /\
   forall j : nat,
     ctx_cancelled (runAction wk w).2
                   (WithCancel (tick_context wk w).1.1 j) = true) /\
  ((timeout wk <= 0)%Z ->
   (tick_context wk w).1.2 = None /\
   forall w' : world, ctx_cancelled w' (tick_context wk w).1.1 = false).
Proof.
  split.
  - intros Hpos.
    assert (Hin : w_next w ∈ w_cancelled (runAction wk w).2).
    { unfold runAction, tick_context.
      destruct (timeout wk >? 0)%Z eqn:Hgt; [|lia].
      match goal with
      | |- context [tick_body wk ?c ?w0] =>
          destruct (tick_body wk c w0) as [[r tr] w1]
      end.
      unfold call_cancel, log_effect. simpl.
      apply elem_of_union_l, elem_of_singleton. reflexivity. }
    unfold tick_context in *.
    destruct (timeout wk >? 0)%Z eqn:Hgt; [|lia].
    cbn [fst snd]. split; [reflexivity|]. split; [exact Hin|].
    unfold ctx_cancelled. cbn [ctx_cancels existsb].
    rewrite bool_decide_eq_true_2 by exact Hin.
    split; [reflexivity|]. intros j. apply orb_true_r.
  - intros Hle. unfold tick_context.
    destruct (timeout wk >? 0)%Z eqn:Hgt; [lia|].
    cbn [fst snd]. split; [reflexivity|].
    intros w'. destruct (amIMaster wk); reflexivity.
Qed.

Lemma runAction_cancels_tick_context_witness :
  ctx_cancelled (runAction timed_worker (sample_world ∅ [])).2
                (tick_context timed_worker (sample_world ∅ [])).1.1 = true /\
  ctx_cancelled (sample_world ∅ [])
                (tick_context lock_worker (sample_world ∅ [])).1.1 = false.
Proof.
  split.
  - apply (runAction_cancels_tick_context timed_worker (sample_world ∅ [])).
    vm_compute. reflexivity.
  - apply (runAction_cancels_tick_context lock_worker (sample_world ∅ [])).
    vm_compute. discriminate.
Defined.

Lemma ctx_cancelled_call_cancel_other k w c :
  k ∉ ctx_cancels c ->
  ctx_cancelled (call_cancel k w) c = ctx_cancelled w c.
Proof.
  unfold ctx_cancelled, call_cancel, log_effect. cbn [w_cancelled].
  induction (ctx_cancels c) as [|j l IH]; [reflexivity|].
  intros Hnot. apply not_elem_of_cons in Hnot as [Hne Hnot].
  cbn [existsb]. rewrite (IH Hnot). f_equal.
  apply bool_decide_ext. rewrite elem_of_union, elem_of_singleton.
  split; [intros [? | ?]; [congruence | assumption] | auto].
Qed.

Lemma tick_context_fresh wk w :
  w_next (tick_context wk w).2 ∉ ctx_cancels (tick_context wk w).1.1.
Proof.
  unfold tick_context. destruct (timeout wk >? 0)%Z; cbn [fst snd w_next].
  - destruct (amIMaster wk); cbn [ctx_cancels];
      intros Hin; apply list_elem_of_singleton in Hin; lia.
  - destruct (amIMaster wk); cbn [ctx_cancels]; apply not_elem_of_nil.
Qed.

(** X15: the watcher cannot cancel the action.  Its middleware keeps a
    cancel function for a context it derives and hands to [monitorLock]
    alone; the hooks and the action of the tick run under the tick's own
    context, which that cancel function is not part of.  When the monitor
    later sees the lock lost, it cancels the derived context and leaves
    the context of the action as it was. *)
Theorem watcher_never_cancels_action_context
    (wk : Worker) (w w0 : world) (c : context) (cancel : option nat) :
  tick_context wk w = (c, cancel, w0) ->
  (IsLocked w0).1 = true ->
  w_watcher_cancel (CancelRunningWorker_Middleware c w0).2
  = Some (w_next w0) /\
  (w_next w0 ∉ ctx_cancels c) /\
  forall w1 : world,
    w_watcher_cancel w1 = Some (w_next w0) ->
    (IsLocked w1).1 = false ->
    (monitor_tick w1).1 = Exited /\
    ctx_cancelled (monitor_tick w1).2 (WithCancel c (w_next w0)) = true /\
    ctx_cancelled (monitor_tick w1).2 c = ctx_cancelled w1 c.
Proof.
  intros Hctx Hl.
  assert (Hfresh : w_next w0 ∉ ctx_cancels c).
  { pose proof (tick_context_fresh wk w) as H. rewrite Hctx in H. exact H. }
  split; [|split; [exact Hfresh|]].
  - unfold CancelRunningWorker_Middleware.
    pose proof (IsLocked_world w0) as Hw.
    destruct (client_Get_world w0) as (_ & _ & Hnext & _).
    destruct (IsLocked w0) as [b w']. simpl in Hl, Hw. subst b w'.
    simpl. rewrite Hnext. reflexivity.
  - intros w1 Hk Hlost. unfold monitor_tick.
    pose proof (IsLocked_world w1) as Hw.
    destruct (client_Get_world w1) as (_ & _ & _ & Hwc).
    assert (Hcs : forall c', ctx_cancelled
                    (client_Get (lockKey (w_locker w1)) w1).2 c'
                  = ctx_cancelled w1 c').
    { intros c'. unfold ctx_cancelled.
      destruct w1 as [st fs cs nx lg l wc].
      unfold client_Get, next_fault. simpl.
      destruct fs as [|[| |] fs]; simpl; try reflexivity;
        destruct (redis_get (lockKey l) st); reflexivity. }
    destruct (IsLocked w1) as [b w']. simpl in Hlost, Hw. subst b w'.
    cbn [negb]. rewrite Hwc, Hk. cbn [fst snd].
    split; [reflexivity|]. split.
    + unfold ctx_cancelled, call_cancel, log_effect.
      cbn [ctx_cancels existsb w_cancelled].
      rewrite bool_decide_eq_true_2; [reflexivity|].
      apply elem_of_union_l, elem_of_singleton. reflexivity.
    + rewrite (ctx_cancelled_call_cancel_other _ _ _ Hfresh). apply Hcs.
Qed.

Lemma watcher_never_cancels_action_context_witness :
  ctx_cancelled
    (monitor_tick
       (mkWorld store_foreign [] ∅ 3 [] sample_locker (Some 2%nat))).2
    (tick_context timed_worker (sample_world store_own [])).1.1 = false.
Proof.
  destruct (watcher_never_cancels_action_context timed_worker
              (sample_world store_own [])
              (tick_context timed_worker (sample_world store_own [])).2
              (tick_context timed_worker (sample_world store_own [])).1.1
              (tick_context timed_worker (sample_world store_own [])).1.2)
    as (_ & _ & H).
  - reflexivity.
  - vm_compute. reflexivity.
  - destruct (H (mkWorld store_foreign [] ∅ 3 [] sample_locker (Some 2%nat)))
      as (_ & _ & ->).
    + reflexivity.
    + vm_compute. reflexivity.
    + vm_compute. reflexivity.
Defined.

(** *** Order of the hooks *)

Lemma no_contention_hooks_all c ms :
  Forall no_contention ms -> forall w, hooks_all calm c ms w.
Proof.
  induction 1 as [|m ms Hm _ IH]; intros w; cbn [hooks_all]; [exact I|].
  split; [apply (Hm c w) | apply IH].
Qed.

Lemma no_panic_hooks_all c ms :
  Forall no_panic ms -> forall w, hooks_all returned c ms w.
Proof.
  induction 1 as [|m ms Hm _ IH]; intros w; cbn [hooks_all]; [exact I|].
  split; [|apply IH].
  specialize (Hm c w). unfold returned. destruct (m c w).1; exact Hm.
Qed.



(** X17: a panic of a before-middleware ends the tick there: no later
    before-middleware, not the action and no after-middleware is called,
    and the state of the tick is the one the panicking middleware left;
    the recovered panic is logged as the failure of the tick and
    [runAction] returns nil. *)
Theorem runAction_before_panic_skips_rest
    (wk : Worker) (w w0 w2 : world) (c : context) (cancel : option nat)
    (pre post : list Middleware) (m : Middleware) (v : string) :
  tick_context wk w = (c, cancel, w0) ->
  beforeMiddlewares wk = pre ++ m :: post ->
  hooks_all calm c pre w0 ->
  m c (apply_hooks c pre w0) = (Panic v, w2) ->
  (runAction wk w).1.1 = None /\
  (exists tr1,
      (runAction wk w).1.2 =
        tr1 ++ [RanBefore (length pre);
                LogError "Worker action failed" ErrPanicRecover] /\
      hooks_run tr1 = map RanBefore (seq 0 (length pre))) /\
  hooks_run (runAction wk w).1.2 = map RanBefore (seq 0 (S (length pre))) /\
  (runAction wk w).2 = finish_tick cancel w2.
Proof.
  intros Hctx Hms Hpre Hm.
  destruct (run_before_hooks c pre 0%nat w0 Hpre) as (tr1 & Hrun1 & Hh1).
  assert (Hbody : tick_body wk c w0 =
                  (Panic v, tr1 ++ [RanBefore (length pre)], w2)).
  { unfold tick_body. rewrite Hms, (run_before_app _ _ _ _ _ _ _ Hrun1).
    cbn [run_before Nat.add]. rewrite Hm. reflexivity. }
  assert (Htr : (runAction wk w).1.2 =
                tr1 ++ [RanBefore (length pre);
                        LogError "Worker action failed" ErrPanicRecover]).
  { unfold runAction. rewrite Hctx, Hbody. cbn [TryContext fst snd].
    rewrite <- app_assoc. reflexivity. }
  split; [apply runAction_nil|].
  split; [exists tr1; split; [exact Htr | exact Hh1]|].
  split; [|apply (runAction_world _ _ _ _ _ _ _ _ Hctx Hbody)].
  rewrite Htr, hooks_run_app, Hh1, seq_S, map_app. reflexivity.
Qed.

Lemma runAction_before_panic_skips_rest_witness :
  hooks_run (runAction panicking_worker (sample_world ∅ [])).1.2 =
    [RanBefore 0; RanBefore 1] /\
  w_log (runAction panicking_marked_worker (sample_world ∅ [])).2 =
    [EfCancel 1].
Proof.
  split.
  - apply (runAction_before_panic_skips_rest panicking_worker
             (sample_world ∅ []) (sample_world ∅ []) (sample_world ∅ [])
             (WithValue Background) None
             [mw_ok] [mw_ok] mw_panic "bang");
      try reflexivity. vm_compute. tauto.
  - destruct (runAction_before_panic_skips_rest panicking_marked_worker
                (sample_world ∅ []) (sample_world ∅ [])
                (call_cancel 1 (sample_world ∅ []))
                Background None
                [mw_mark 1] [mw_mark 2] mw_panic "bang")
      as (_ & _ & _ & ->); try reflexivity. vm_compute. tauto.
Defined.

(** *** Stopping *)

Lemma mw_exec_outside wk evs st st1 :
  run_exec (mw_runAction wk) (errorHandler wk) evs st = Some st1 ->
  r_stopper st = 0%nat /\ r_status st <> Blocked /\
  (r_status st = Returned -> r_ext st = true) ->
  r_stopper st1 = 0%nat /\ r_status st1 <> Blocked /\
  (r_status st1 = Returned -> r_ext st1 = true).
Proof.
  revert st. induction evs as [|e evs IH]; intros st; simpl.
  - intros [= <-] H. exact H.
  - destruct (run_step (mw_runAction wk) (errorHandler wk) e st)
      as [st'|] eqn:Hstep; [|discriminate].
    intros Hexec (Hs & Hb & Hr). apply (IH _ Hexec).
    destruct e as [| |a]; simpl in Hstep.
    + injection Hstep as <-. simpl. auto.
    + injection Hstep as <-. simpl. auto.
    + unfold loop_select in Hstep.
      destruct (r_status st) eqn:Hst; try discriminate.
      destruct a.
      * destruct (r_ext st) eqn:Hext; [|discriminate].
        injection Hstep as <-. simpl.
        split; [assumption|]. split; [discriminate|]. intros _. exact Hext.
      * rewrite Hs in Hstep. discriminate.
      * destruct (r_timer st); [|discriminate]. injection Hstep as <-.
        match goal with
        | |- context [run_and_handle _ _ _ ?s] =>
            destruct (run_and_handle_quiet wk true s eq_refl)
              as (-> & -> & _ & _)
        end.
        simpl. split; [assumption|]. split; discriminate.
Qed.

(** X18: the worker with middlewares can only be stopped from outside.
    Along every run of [Run] the loop never blocks, the arm of [stopper]
    is never ready, and the loop has returned only if the external
    context was cancelled. *)
Theorem Run_stops_only_on_external_cancellation
    (wk : Worker) (evs : list run_event) (w : world) (st : run_state) :
  MW.Run wk evs w = Some st ->
  r_status st <> Blocked /\
  (r_status st = Returned -> r_ext st = true) /\
  step wk (Select ArmStopper) st = None.
Proof.
  intros Hrun. unfold MW.Run, Run in Hrun.
  destruct (mw_exec_outside _ _ _ _ Hrun) as (Hs & Hb & Hr).
  { unfold Run_start. destruct (fromStart wk).
    - destruct (run_and_handle_quiet wk false (run_init w) eq_refl)
        as (Hs & Hp & _ & _).
      rewrite Hs. destruct (duration wk <=? 0)%Z; simpl; rewrite ?Hs, Hp;
        repeat split; try discriminate; congruence.
    - simpl. destruct (duration wk <=? 0)%Z; simpl;
        repeat split; discriminate. }
  split; [exact Hb|]. split; [exact Hr|].
  unfold step. simpl. unfold loop_select.
  destruct (r_status st); try reflexivity. rewrite Hs. reflexivity.
Qed.

Lemma Run_stops_only_on_external_cancellation_witness :
  step failing_worker (Select ArmStopper)
       (mkRun (sample_world ∅ []) 0 0 false false 1 []
              [RanAction; LogError "Worker action failed" (ErrNew "boom")]
              Running) = None.
Proof.
  apply (Run_stops_only_on_external_cancellation failing_worker
           [EnvTimer; Select ArmTick] (sample_world ∅ [])).
  vm_compute. reflexivity.
Defined.
End MiddlewareExtras.

(** * Further properties of the scheduler loop *)

Section RunLoopExtras.
Variable runAction : world -> option error * nat * list hook_event * world.
Variable errorHandler : option (error -> bool).
Variable fromStart : bool.
Variable duration : Z.

Lemma send_stopper_fields st :
  r_ticks (send_stopper st) = r_ticks st /\
  r_trace (send_stopper st) = r_trace st /\
  r_done (send_stopper st) = r_done st /\
  r_world (send_stopper st) = r_world st.
Proof.
  unfold send_stopper. destruct (r_status st); try (repeat split; reflexivity).
  destruct (r_stopper st <? 1)%nat; repeat split; reflexivity.
Qed.

Lemma send_stopper_n_fields n st :
  r_ticks (send_stopper_n n st) = r_ticks st /\
  r_trace (send_stopper_n n st) = r_trace st /\
  r_done (send_stopper_n n st) = r_done st /\
  r_world (send_stopper_n n st) = r_world st.
Proof.
  revert st. induction n as [|n IH]; intros st; simpl.
  - repeat split; reflexivity.
  - destruct (IH (send_stopper st)) as (H1 & H2 & H3 & H4).
    destruct (send_stopper_fields st) as (K1 & K2 & K3 & K4).
    repeat split; congruence.
Qed.

Lemma run_and_handle_fields count st :
  r_ticks (run_and_handle runAction errorHandler count st)
  = (if count then S (r_ticks st) else r_ticks st) /\
  r_trace (run_and_handle runAction errorHandler count st)
  = r_trace st ++ (runAction (r_world st)).1.2 /\
  r_done (run_and_handle runAction errorHandler count st) = r_done st.
Proof.
  unfold run_and_handle.
  destruct (runAction (r_world st)) as [[[err stops] tr] w1]. cbn [fst snd].
  match goal with
  | |- context [send_stopper_n stops ?s] =>
      destruct (send_stopper_n_fields stops s) as (H1 & H2 & H3 & _);
      destruct (send_stopper_n stops s) as [w2 sp dn ex tm tk hd tr2 stt]
  end.
  cbn [r_ticks r_trace r_done r_status r_world r_stopper r_ext r_timer
       r_handled] in *. subst tk tr2 dn.
  destruct stt; try (repeat split; reflexivity).
  destruct err as [e|]; [|repeat split; reflexivity].
  destruct errorHandler as [h|]; [|repeat split; reflexivity].
  destruct (h e); [repeat split; reflexivity|].
  match goal with
  | |- context [send_stopper ?s] =>
      destruct (send_stopper_fields s) as (K1 & K2 & K3 & _)
  end.
  rewrite K1, K2, K3. repeat split; reflexivity.
Qed.

Lemma run_and_handle_world count st :
  r_world (run_and_handle runAction errorHandler count st)
  = (runAction (r_world st)).2.
Proof.
  unfold run_and_handle.
  destruct (runAction (r_world st)) as [[[err stops] tr] w1]. cbn [fst snd].
  match goal with
  | |- context [send_stopper_n stops ?s] =>
      destruct (send_stopper_n_fields stops s) as (_ & _ & _ & H4);
      destruct (send_stopper_n stops s) as [w2 sp dn ex tm tk hd tr2 stt]
  end.
  cbn [r_world r_status r_stopper r_done r_ext r_timer r_ticks r_handled
       r_trace] in *. subst w2.
  destruct stt; try reflexivity.
  destruct err as [e|]; [|reflexivity].
  destruct errorHandler as [h|]; [|reflexivity].
  destruct (h e); [reflexivity|].
  match goal with
  | |- context [send_stopper ?s] =>
      destruct (send_stopper_fields s) as (_ & _ & _ & K4)
  end.
  rewrite K4. reflexivity.
Qed.

Lemma run_exec_not_running evs st st1 :
  run_exec runAction errorHandler evs st = Some st1 ->
  r_status st <> Running ->
  r_status st1 = r_status st /\ r_ticks st1 = r_ticks st /\
  r_done st1 = r_done st /\ r_trace st1 = r_trace st.
Proof.
  revert st. induction evs as [|e evs IH]; intros st; simpl.
  - intros [= <-]. auto.
  - destruct (run_step runAction errorHandler e st) as [st'|] eqn:Hstep;
      [|discriminate].
    intros Hexec Hnot.
    assert (H : r_status st' = r_status st /\ r_ticks st' = r_ticks st /\
                r_done st' = r_done st /\ r_trace st' = r_trace st).
    { destruct e as [| |a]; simpl in Hstep.
      - injection Hstep as <-. auto.
      - injection Hstep as <-. auto.
      - unfold loop_select in Hstep.
        destruct (r_status st); try discriminate. contradiction. }
    destruct H as (H1 & H2 & H3 & H4).
    destruct (IH _ Hexec) as (K1 & K2 & K3 & K4); [congruence|].
    repeat split; congruence.
Qed.

(** X19: with a tick interval that is not positive, [Run] still makes the
    first run when [fromStart] is set, but [time.NewTicker] then panics:
    the loop never runs a tick, never returns and never sends [done]. *)
Theorem Run_nonpositive_duration_never_ticks
    (evs : list run_event) (w : world) (st : run_state) :
  (duration <= 0)%Z ->
  Run runAction errorHandler fromStart duration evs w = Some st ->
  r_status st <> Running /\ r_status st <> Returned /\
  r_ticks st = 0%nat /\ r_done st = 0%nat /\
  r_trace st = (if fromStart then (runAction w).1.2 else []).
Proof.
  intros Hle Hrun. unfold Run in Hrun.
  pose proof (Run_start_pending runAction errorHandler fromStart duration w)
    as [Hd Hret].
  assert (Hstart : r_status (Run_start runAction errorHandler fromStart
                               duration w) <> Running /\
                   r_ticks (Run_start runAction errorHandler fromStart
                              duration w) = 0%nat /\
                   r_trace (Run_start runAction errorHandler fromStart
                              duration w)
                   = (if fromStart then (runAction w).1.2 else [])).
  { unfold Run_start.
    assert (Hfirst :
              r_ticks (if fromStart
                       then run_and_handle runAction errorHandler false
                                           (run_init w)
                       else run_init w) = 0%nat /\
              r_trace (if fromStart
                       then run_and_handle runAction errorHandler false
                                           (run_init w)
                       else run_init w)
              = (if fromStart then (runAction w).1.2 else [])).
    { destruct fromStart; [|split; reflexivity].
      destruct (run_and_handle_fields false (run_init w)) as (H1 & H2 & _).
      split; assumption. }
    destruct (if fromStart then _ else _)
      as [w2 sp dn ex tm tk hd tr2 stt].
    cbn [r_ticks r_trace r_status] in *.
    destruct stt; cbn [r_status r_ticks r_trace set_status];
      try (destruct Hfirst; repeat split; try discriminate; assumption).
    replace (duration <=? 0)%Z with true by (symmetry; apply Z.leb_le; lia).
    destruct Hfirst; repeat split; try discriminate; assumption. }
  destruct Hstart as (Hs & Ht & Htr).
  destruct (run_exec_not_running _ _ _ Hrun Hs) as (K1 & K2 & K3 & K4).
  rewrite K1, K2, K3, K4. repeat split; assumption.
Qed.

End RunLoopExtras.

Lemma Run_nonpositive_duration_never_ticks_witness :
  exists st,
    CW.Run (CW.FromStart true (CW.New AppContext "job" 0 cw_action_ok))
           [EnvTimer; EnvCancel] (sample_world ∅ []) = Some st /\
    r_ticks st = 0%nat /\ r_done st = 0%nat /\ r_trace st = [RanAction].
Proof.
  eexists. split; [vm_compute; reflexivity|].
  destruct (Run_nonpositive_duration_never_ticks
              (CW.runAction
                 (CW.FromStart true (CW.New AppContext "job" 0 cw_action_ok)))
              None true 0 [EnvTimer; EnvCancel] (sample_world ∅ []) _
              ltac:(vm_compute; discriminate)
              ltac:(vm_compute; reflexivity))
    as (_ & _ & H1 & H2 & H3).
  repeat split; assumption.
Defined.

(** * Further properties of the worker with a [stop] callback *)

Section ContextWorkerExtras.

Lemma send_stopper_blocked_n n st :
  r_status st = Blocked -> send_stopper_n n st = st.
Proof.
  revert st. induction n as [|n IH]; intros st Hb; simpl; [reflexivity|].
  assert (Hs : send_stopper st = st)
    by (unfold send_stopper; rewrite Hb; reflexivity).
  rewrite Hs. apply IH, Hb.
Qed.

Lemma send_stopper_full st :
  r_status st = Running -> (1 <= r_stopper st)%nat ->
  r_status (send_stopper st) = Blocked.
Proof.
  intros Hr Hs. unfold send_stopper. rewrite Hr.
  destruct (r_stopper st <? 1)%nat eqn:Hlt; [|reflexivity].
  apply Nat.ltb_lt in Hlt. lia.
Qed.

Lemma send_stopper_empty st :
  r_status st = Running -> r_stopper st = 0%nat ->
  r_status (send_stopper st) = Running /\
  r_stopper (send_stopper st) = 1%nat.
Proof.
  intros Hr Hs. unfold send_stopper. rewrite Hr, Hs. split; reflexivity.
Qed.

Lemma send_stopper_n_overfull n st :
  r_status st = Running ->
  (2 <= n)%nat \/ ((1 <= r_stopper st)%nat /\ (1 <= n)%nat) ->
  r_status (send_stopper_n n st) = Blocked.
Proof.
  intros Hr Hn.
  destruct n as [|n]; [lia|]. simpl.
  destruct (Nat.eq_dec (r_stopper st) 0) as [Hz|Hnz].
  - destruct (send_stopper_empty st Hr Hz) as [Hr1 Hs1].
    destruct n as [|n]; [lia|]. simpl.
    rewrite send_stopper_blocked_n; apply send_stopper_full; (assumption || lia).
  - rewrite send_stopper_blocked_n; apply send_stopper_full; (assumption || lia).
Qed.

Lemma cw_runAction_err (wk : CW.Worker) (w : world) :
  is_Some (CW.runAction wk w).1.1.1.
Proof.
  unfold CW.runAction.
  destruct (CW.tick_context wk w) as [[c cancel] w0].
  destruct (CW.action wk c w0) as [[r stops] w1]. cbn [fst].
  destruct r as [[e|]|v]; simpl; eauto.
Qed.

Lemma cw_runAction_trace (wk : CW.Worker) (w : world) :
  (CW.runAction wk w).1.2 = [RanAction].
Proof.
  unfold CW.runAction.
  destruct (CW.tick_context wk w) as [[c cancel] w0].
  destruct (CW.action wk c w0) as [[r stops] w1]. reflexivity.
Qed.

(** X20: [stop] is a send on a channel of capacity one that only the loop
    reads, and the loop is busy running the action.  A tick whose action
    calls [stop] twice, or once while a stop is already pending, or once
    followed by the error handler declining to continue, blocks for ever:
    the loop takes no further arm and [done] is never sent. *)
Theorem stop_calls_can_block_forever
    (wk : CW.Worker) (st st1 : run_state) :
  CW.step wk (Select ArmTick) st = Some st1 ->
  ((2 <= (CW.runAction wk (r_world st)).1.1.2)%nat \/
   ((1 <= r_stopper st)%nat /\
    (1 <= (CW.runAction wk (r_world st)).1.1.2)%nat) ->
   r_status st1 = Blocked) /\
  (forall h : error -> bool,
      CW.errorHandler wk = Some h ->
      r_stopper st = 0%nat ->
      (CW.runAction wk (r_world st)).1.1.2 = 1%nat ->
      (forall e, (CW.runAction wk (r_world st)).1.1.1 = Some e ->
                 h e = false) ->
      r_status st1 = Blocked) /\
  (r_status st1 = Blocked ->
   r_done st1 = r_done st /\
   forall (evs : list run_event) (st2 : run_state),
     run_exec (CW.runAction wk) (CW.errorHandler wk) evs st1 = Some st2 ->
     r_status st2 = Blocked /\ r_done st2 = r_done st /\
     r_ticks st2 = r_ticks st1).
Proof.
  intros Hstep. unfold CW.step in Hstep. simpl in Hstep.
  unfold loop_select in Hstep.
  destruct (r_status st) eqn:Hst; try discriminate.
  destruct (r_timer st); [|discriminate]. injection Hstep as <-.
  split; [|split].
  - intros Hn. unfold run_and_handle. cbn [r_world].
    destruct (CW.runAction wk (r_world st)) as [[[err stops] tr] w1].
    cbn [fst snd] in Hn.
    match goal with
    | |- context [send_stopper_n stops ?s] =>
        pose proof (send_stopper_n_overfull stops s eq_refl Hn) as Hb;
        destruct (send_stopper_n stops s) as [w2 sp dn ex tm tk hd tr2 stt]
    end.
    cbn [r_status] in *. subst stt. reflexivity.
  - intros h Hh Hs Hone Hdecl. unfold run_and_handle. cbn [r_world].
    pose proof (cw_runAction_err wk (r_world st)) as [e He].
    specialize (Hdecl e He).
    destruct (CW.runAction wk (r_world st)) as [[[err stops] tr] w1].
    cbn [fst snd] in Hone, He. subst stops err.
    cbn [send_stopper_n].
    match goal with
    | |- context [send_stopper ?s] =>
        destruct (send_stopper_empty s eq_refl Hs) as [Hr1 Hs1];
        destruct (send_stopper s) as [w2 sp dn ex tm tk hd tr2 stt]
    end.
    cbn [r_status r_stopper] in *. subst stt sp.
    rewrite Hh, Hdecl. apply send_stopper_full; [reflexivity | apply le_n].
  - intros Hb.
    match goal with
    | |- context [run_and_handle _ _ true ?s] =>
        destruct (run_and_handle_fields (CW.runAction wk)
                    (CW.errorHandler wk) true s) as (_ & _ & Hd)
    end.
    cbn [r_done] in Hd. split; [exact Hd|].
    intros evs st2 Hexec.
    destruct (run_exec_not_running _ _ _ _ _ Hexec) as (K1 & K2 & K3 & _).
    { rewrite Hb. discriminate. }
    rewrite K1, K2, K3, Hd, Hb. repeat split; reflexivity.
Qed.

Lemma stop_calls_can_block_forever_witness :
  exists st1,
    CW.step cw_stopping_worker (Select ArmTick)
            (mkRun (sample_world ∅ []) 0 0 false true 0 [] [] Running)
    = Some st1 /\ r_status st1 = Blocked /\ r_done st1 = 0%nat.
Proof.
  eexists. split; [vm_compute; reflexivity|].
  destruct (stop_calls_can_block_forever cw_stopping_worker
              (mkRun (sample_world ∅ []) 0 0 false true 0 [] [] Running) _
              ltac:(vm_compute; reflexivity)) as (H1 & _ & H3).
  assert (Hb : (2 <= (CW.runAction cw_stopping_worker
                        (sample_world ∅ [])).1.1.2)%nat)
    by (vm_compute; apply le_n).
  split; [exact (H1 (or_introl Hb))|].
  exact (proj1 (H3 (H1 (or_introl Hb)))).
Defined.

(** X21: the stop callback works when used once.  After a tick whose
    action called [stop] once, no stop being pending before and the error
    handler (if any) agreeing to continue, the loop is still running with
    the stop signal buffered; when the [select] takes it, the loop sends
    [done] once and returns. *)
Theorem stop_callback_stops_the_loop
    (wk : CW.Worker) (st st1 : run_state) :
  CW.step wk (Select ArmTick) st = Some st1 ->
  r_stopper st = 0%nat ->
  (CW.runAction wk (r_world st)).1.1.2 = 1%nat ->
  (forall h e, CW.errorHandler wk = Some h ->
               (CW.runAction wk (r_world st)).1.1.1 = Some e -> h e = true) ->
  r_status st1 = Running /\ r_stopper st1 = 1%nat /\
  exists st2,
    CW.step wk (Select ArmStopper) st1 = Some st2 /\
    r_status st2 = Returned /\ r_done st2 = S (r_done st) /\
    r_ticks st2 = S (r_ticks st).
Proof.
  intros Hstep Hs Hone Hcont. unfold CW.step in Hstep. simpl in Hstep.
  unfold loop_select in Hstep.
  destruct (r_status st) eqn:Hst; try discriminate.
  destruct (r_timer st); [|discriminate]. injection Hstep as <-.
  assert (H : r_status (run_and_handle (CW.runAction wk) (CW.errorHandler wk)
                          true
                          (mkRun (r_world st) (r_stopper st) (r_done st)
                                 (r_ext st) false (r_ticks st) (r_handled st)
                                 (r_trace st) Running)) = Running /\
              r_stopper (run_and_handle (CW.runAction wk)
                           (CW.errorHandler wk) true
                           (mkRun (r_world st) (r_stopper st) (r_done st)
                                  (r_ext st) false (r_ticks st)
                                  (r_handled st) (r_trace st) Running))
              = 1%nat).
  { unfold run_and_handle. cbn [r_world].
    destruct (CW.runAction wk (r_world st)) as [[[err stops] tr] w1].
    cbn [fst snd] in Hone, Hcont. subst stops. cbn [send_stopper_n].
    match goal with
    | |- context [send_stopper ?s] =>
        destruct (send_stopper_empty s eq_refl Hs) as [Hr1 Hs1];
        destruct (send_stopper s) as [w2 sp dn ex tm tk hd tr2 stt]
    end.
    cbn [r_status r_stopper] in *. subst stt sp.
    destruct err as [e|]; [|split; reflexivity].
    destruct (CW.errorHandler wk) as [h|]; [|split; reflexivity].
    rewrite (Hcont h e eq_refl eq_refl). split; reflexivity. }
  destruct H as [Hr Hst1]. split; [exact Hr|]. split; [exact Hst1|].
  destruct (run_and_handle_fields (CW.runAction wk) (CW.errorHandler wk) true
              (mkRun (r_world st) (r_stopper st) (r_done st) (r_ext st) false
                     (r_ticks st) (r_handled st) (r_trace st) Running))
    as (Ht & _ & Hd).
  unfold CW.step. simpl. unfold loop_select. rewrite Hr, Hst1.
  eexists. split; [reflexivity|]. cbn [r_status r_done r_ticks send_done_return].
  rewrite Hd, Ht. repeat split; reflexivity.
Qed.

Lemma stop_callback_stops_the_loop_witness :
  exists st1 st2,
    CW.step (CW.New AppContext "job" Second cw_action_stop_once)
            (Select ArmTick)
            (mkRun (sample_world ∅ []) 0 0 false true 0 [] [] Running)
    = Some st1 /\
    CW.step (CW.New AppContext "job" Second cw_action_stop_once)
            (Select ArmStopper) st1 = Some st2 /\
    r_status st2 = Returned /\ r_done st2 = 1%nat.
Proof.
  eexists.
  destruct (stop_callback_stops_the_loop
              (CW.New AppContext "job" Second cw_action_stop_once)
              (mkRun (sample_world ∅ []) 0 0 false true 0 [] [] Running) _
              ltac:(vm_compute; reflexivity) eq_refl eq_refl)
    as (_ & _ & st2 & H1 & H2 & H3 & _).
  { intros h e Hh. discriminate Hh. }
  exists st2. split; [reflexivity|]. auto.
Defined.

Lemma cw_exec_trace (wk : CW.Worker) (n : nat) evs st st1 :
  run_exec (CW.runAction wk) (CW.errorHandler wk) evs st = Some st1 ->
  r_trace st = replicate (r_ticks st + n) RanAction ->
  r_trace st1 = replicate (r_ticks st1 + n) RanAction.
Proof.
  revert st. induction evs as [|e evs IH]; intros st; simpl.
  - intros [= <-] H. exact H.
  - destruct (run_step (CW.runAction wk) (CW.errorHandler wk) e st)
      as [st'|] eqn:Hstep; [|discriminate].
    intros Hexec Hinv. apply (IH _ Hexec).
    destruct e as [| |a]; simpl in Hstep.
    + injection Hstep as <-. exact Hinv.
    + injection Hstep as <-. exact Hinv.
    + unfold loop_select in Hstep.
      destruct (r_status st); try discriminate.
      destruct a.
      * destruct (r_ext st); [|discriminate]. injection Hstep as <-.
        exact Hinv.
      * destruct (r_stopper st); [discriminate|]. injection Hstep as <-.
        exact Hinv.
      * destruct (r_timer st); [|discriminate]. injection Hstep as <-.
        match goal with
        | |- context [run_and_handle _ _ true ?s] =>
            destruct (run_and_handle_fields (CW.runAction wk)
                        (CW.errorHandler wk) true s) as (-> & -> & _)
        end.
        cbn [r_trace r_ticks r_world]. rewrite cw_runAction_trace, Hinv.
        cbn [Nat.add]. rewrite replicate_S_end. reflexivity.
Qed.

Lemma cw_runAction_world (wk : CW.Worker) (w : world) :
  (CW.runAction wk w).2 = one_run wk w.
Proof.
  unfold CW.runAction, one_run.
  destruct (CW.tick_context wk w) as [[c cancel] w0]. cbn [fst snd].
  destruct (CW.action wk c w0) as [[r stops] w1]. reflexivity.
Qed.

Lemma cw_exec_world (wk : CW.Worker) (n : nat) (w : world) evs st st1 :
  run_exec (CW.runAction wk) (CW.errorHandler wk) evs st = Some st1 ->
  r_world st = Nat.iter (r_ticks st + n) (one_run wk) w ->
  r_world st1 = Nat.iter (r_ticks st1 + n) (one_run wk) w.
Proof.
  revert st. induction evs as [|e evs IH]; intros st; simpl.
  - intros [= <-] H. exact H.
  - destruct (run_step (CW.runAction wk) (CW.errorHandler wk) e st)
      as [st'|] eqn:Hstep; [|discriminate].
    intros Hexec Hinv. apply (IH _ Hexec).
    destruct e as [| |a]; simpl in Hstep.
    + injection Hstep as <-. exact Hinv.
    + injection Hstep as <-. exact Hinv.
    + unfold loop_select in Hstep.
      destruct (r_status st); try discriminate.
      destruct a.
      * destruct (r_ext st); [|discriminate]. injection Hstep as <-.
        exact Hinv.
      * destruct (r_stopper st); [discriminate|]. injection Hstep as <-.
        exact Hinv.
      * destruct (r_timer st); [|discriminate]. injection Hstep as <-.
        rewrite run_and_handle_world.
        match goal with
        | |- context [run_and_handle _ _ true ?s] =>
            destruct (run_and_handle_fields (CW.runAction wk)
                        (CW.errorHandler wk) true s) as (-> & _ & _)
        end.
        cbn [r_ticks r_world]. rewrite cw_runAction_world, Hinv.
        reflexivity.
Qed.



(** X23: in the worker with a [stop] callback the timeout set with
    [Timeout] has no effect: every run of [Run] is the same with and
    without it, and the action's context is bounded by the tick interval
    instead -- the deadline is the interval when it is positive, and there
    is none otherwise. *)
Theorem tick_deadline_is_the_tick_interval
    (wk : CW.Worker) (t : Z) (w : world) :
  ((0 < CW.duration wk)%Z ->
   ctx_deadline (CW.tick_context (CW.Timeout t wk) w).1.1
   = Some (CW.duration wk)) /\
  ((CW.duration wk <= 0)%Z ->
   ctx_deadline (CW.tick_context (CW.Timeout t wk) w).1.1 = None) /\
  ctx_root (CW.tick_context (CW.Timeout t wk) w).1.1 = Background /\
  (forall evs : list run_event,
      CW.Run (CW.Timeout t wk) evs w = CW.Run wk evs w).
Proof.
  unfold CW.tick_context. cbn [CW.Timeout CW.duration].
  split; [|split; [|split]].
  - intros H. destruct (CW.duration wk >? 0)%Z eqn:Hgt; [reflexivity | lia].
  - intros H. destruct (CW.duration wk >? 0)%Z eqn:Hgt; [lia | reflexivity].
  - destruct (CW.duration wk >? 0)%Z; reflexivity.
  - intros evs. reflexivity.
Qed.

Lemma tick_deadline_is_the_tick_interval_witness :
  ctx_deadline
    (CW.tick_context (CW.Timeout (5 * Second) cw_quiet_worker)
                     (sample_world ∅ [])).1.1 = Some Second.
Proof.
  apply (tick_deadline_is_the_tick_interval cw_quiet_worker (5 * Second)
           (sample_world ∅ [])).
  vm_compute. reflexivity.
Defined.
End ContextWorkerExtras.

Section OverflowExtras.

(** X24: the timeout of the worker with middlewares is extended by one
    second in [int64] arithmetic.  A timeout within one second of the
    largest duration wraps around: the deadline handed to
    [context.WithTimeout] is negative, so the context of the tick is
    expired from the start. *)
Theorem tick_context_timeout_overflow (wk : MW.Worker) (w : world) :
  (max_int64 - Second < MW.timeout wk <= max_int64)%Z ->
  ctx_deadline (MW.tick_context wk w).1.1
  = Some (MW.timeout wk + Second - 2 ^ 64)%Z /\
  (MW.timeout wk + Second - 2 ^ 64 < 0)%Z.
Proof.
  intros H. unfold max_int64, Second in H.
  split; [|unfold Second; lia].
  unfold MW.tick_context.
  destruct (MW.timeout wk >? 0)%Z eqn:Hgt; [|lia].
  assert (Hw : duration_add (MW.timeout wk) Second
               = (MW.timeout wk + Second - 2 ^ 64)%Z).
  { unfold duration_add, wrap64, Second.
    replace (MW.timeout wk + 1000000000 + 2 ^ 63)%Z
      with ((MW.timeout wk + 1000000000 - 2 ^ 63) + 1 * 2 ^ 64)%Z by lia.
    rewrite Z_mod_plus_full, Z.mod_small by lia. lia. }
  destruct (MW.amIMaster wk); cbn [fst ctx_deadline min_deadline];
    rewrite Hw; reflexivity.
Qed.

Lemma tick_context_timeout_overflow_witness :
  ctx_deadline
    (MW.tick_context (MW.Timeout max_int64 timed_worker)
                     (sample_world ∅ [])).1.1
  = Some (Second - 1 - 2 ^ 63)%Z.
Proof.
  etransitivity.
  - apply (tick_context_timeout_overflow (MW.Timeout max_int64 timed_worker)
             (sample_world ∅ [])).
    vm_compute. split; [reflexivity | discriminate].
  - vm_compute. reflexivity.
Defined.
End OverflowExtras.

(** * The lock as middleware *)

Section GuardedTickExtras.
Import MW.

Lemma tick_context_store wk w :
  w_store (tick_context wk w).2 = w_store w.
Proof.
  unfold tick_context. destruct (timeout wk >? 0)%Z; reflexivity.
Qed.

Lemma runAction_store wk w c cancel w0 r tr w1 :
  tick_context wk w = (c, cancel, w0) ->
  tick_body wk c w0 = (r, tr, w1) ->
  w_store (runAction wk w).2 = w_store w1.
Proof.
  intros Hctx Hbody. unfold runAction. rewrite Hctx, Hbody.
  destruct cancel; reflexivity.
Qed.

(** X25: a tick between [LockMiddleware] and [UnlockMiddleware] gives the
    lock back.  When the lock is acquired, the action leaves the store and
    the locker alone and the release reaches the server, the tick runs the
    acquire, the action and the release in that order and ends with the
    store as it was before the tick -- whether the action returned nil,
    returned an error or panicked. *)
Theorem guarded_tick_releases_lock
    (wk : Worker) (w w0 w2 : world) (c : context) (cancel : option nat)
    (r : outcome) :
  tick_context wk w = (c, cancel, w0) ->
  beforeMiddlewares wk = [LockMiddleware] ->
  afterMiddlewares wk = [UnlockMiddleware] ->
  (TryLock c w0).1 = None ->
  action wk c (TryLock c w0).2 = (r, w2) ->
  w_store w2 = w_store (TryLock c w0).2 ->
  w_locker w2 = w_locker (TryLock c w0).2 ->
  (forall e, coming_fault w2 <> FailBefore e) ->
  hooks_run (runAction wk w).1.2 = [RanBefore 0; RanAction; RanAfter 0] /\
  w_store (runAction wk w).2 = w_store w.
Proof.
  intros Hctx Hb Ha Hok Hact Hst Hl Hf.
  destruct (TryLock_success c w0 Hok) as (Hf0 & Hnone).
  pose proof (TryLock_NoFault c w0 Hf0) as Hw. rewrite Hnone in Hw.
  assert (Hmw : LockMiddleware c w0 = (Return None, (TryLock c w0).2)).
  { unfold LockMiddleware. destruct (TryLock c w0) as [err w1].
    simpl in Hok. subst err. reflexivity. }
  assert (Hun : UnlockMiddleware c w2 = (Return (Unlock w2).1, (Unlock w2).2)).
  { unfold UnlockMiddleware. destruct (Unlock w2). reflexivity. }
  assert (Hfinal : w_store (Unlock w2).2 = w_store w).
  { rewrite Unlock_store, Hst, Hl, Hw. cbn [snd w_store w_locker lockKey
      lockValue].
    rewrite bool_decide_eq_true_2
      by (unfold redis_get; rewrite lookup_insert_eq; reflexivity).
    rewrite delete_insert_eq, (delete_id _ _ Hnone).
    pose proof (tick_context_store wk w) as Hs0. rewrite Hctx in Hs0.
    cbn [snd] in Hs0. rewrite Hs0.
    destruct (coming_fault w2) as [|e|e]; try reflexivity.
    exfalso. apply (Hf e). reflexivity. }
  assert (Hbody : exists tr,
             tick_body wk c w0 = (r, tr, (Unlock w2).2) /\
             hooks_run tr = [RanBefore 0; RanAction; RanAfter 0]).
  { unfold tick_body. rewrite Hb, Ha. cbn [run_before].
    rewrite Hmw, Hact. cbn [run_after]. rewrite Hun. cbn [app].
    destruct (Unlock w2).1 as [e|]; eexists; split; reflexivity. }
  destruct Hbody as (tr & Hbody & Htr).
  split.
  - unfold runAction. rewrite Hctx, Hbody. cbn [fst snd].
    destruct (TryContext r); [|exact Htr].
    rewrite hooks_run_app, Htr. reflexivity.
  - rewrite (runAction_store _ _ _ _ _ _ _ _ Hctx Hbody). exact Hfinal.
Qed.

Lemma guarded_tick_releases_lock_witness :
  hooks_run
    (runAction
       (AfterMiddlewares [UnlockMiddleware]
          (BeforeMiddlewares [LockMiddleware]
             (NewWorker false "job" Second action_panic)))
       (sample_world ∅ [])).1.2 = [RanBefore 0; RanAction; RanAfter 0] /\
  w_store
    (runAction
       (AfterMiddlewares [UnlockMiddleware]
          (BeforeMiddlewares [LockMiddleware]
             (NewWorker false "job" Second action_panic)))
       (sample_world ∅ [])).2 = ∅.
Proof.
  apply (guarded_tick_releases_lock
           (AfterMiddlewares [UnlockMiddleware]
              (BeforeMiddlewares [LockMiddleware]
                 (NewWorker false "job" Second action_panic)))
           (sample_world ∅ []) (sample_world ∅ [])
           (TryLock Background (sample_world ∅ [])).2
           Background None (Panic "bang")).
  - reflexivity.
  - reflexivity.
  - reflexivity.
  - vm_compute. reflexivity.
  - reflexivity.
  - reflexivity.
  - reflexivity.
  - intros e H. vm_compute in H. discriminate H.
Defined.

(** X26: a tick guarded by [LockMiddleware] is skipped whenever the key is
    present and the store call succeeds -- also when the value under the
    key is the worker's own token, left by an earlier tick that did not
    release it.  The tick then runs nothing but the middleware and leaves
    the store as it was. *)
Theorem guarded_tick_skipped_while_key_present
    (wk : Worker) (w w0 : world) (c : context) (cancel : option nat)
    (rest : list Middleware) :
  tick_context wk w = (c, cancel, w0) ->
  beforeMiddlewares wk = LockMiddleware :: rest ->
  coming_fault w0 = NoFault ->
  is_Some (w_store w0 !! lockKey (w_locker w0)) ->
  (runAction wk w).1.2 = [RanBefore 0] /\
  w_store (runAction wk w).2 = w_store w.
Proof.
  intros Hctx Hb Hf [rec Hrec].
  pose proof (TryLock_NoFault c w0 Hf) as Hw. rewrite Hrec in Hw.
  assert (Hmw : LockMiddleware c w0
                = (Return (Some ErrLocked), (TryLock c w0).2))
    by (unfold LockMiddleware; rewrite Hw; reflexivity).
  assert (Hbody : tick_body wk c w0
                  = (Return None, [RanBefore 0], (TryLock c w0).2)).
  { unfold tick_body. rewrite Hb. cbn [run_before].
    rewrite Hmw. cbn [errors_Is].
    rewrite bool_decide_eq_true_2 by reflexivity.
    rewrite run_before_locked. reflexivity. }
  split.
  - unfold runAction. rewrite Hctx, Hbody. reflexivity.
  - rewrite (runAction_store _ _ _ _ _ _ _ _ Hctx Hbody).
    rewrite TryLock_store, Hf. unfold redis_setnx. rewrite Hrec.
    pose proof (tick_context_store wk w) as Hs0. rewrite Hctx in Hs0.
    exact Hs0.
Qed.

Lemma guarded_tick_skipped_while_key_present_witness :
  (runAction lock_worker (sample_world store_own [])).1.2 = [RanBefore 0].
Proof.
  apply (guarded_tick_skipped_while_key_present lock_worker
           (sample_world store_own []) (sample_world store_own [])
           Background None []).
  - reflexivity.
  - reflexivity.
  - reflexivity.
  - vm_compute. eauto.
Defined.
End GuardedTickExtras.
